(** * The real-time room relay of server.js

    A shallow embedding of the collaboration part of [server.js]: the
    room registry ([rooms], [getRoom]), the presence fan-out registered
    on a room's awareness object, the connection handlers installed by
    [onWSConnection], the ["upgrade"] listener and the [/api/rooms]
    directory.

    The document engine (yjs), the sync and awareness protocols
    (y-protocols), the binary framing (lib0) and the socket objects (ws)
    are libraries the server imports.  They are kept abstract, as the
    operations of a [Capability]; the relay is written once against that
    interface, and a small concrete instance runs it on examples. *)

From Stdlib Require Import NArith ZArith QArith Ascii String.
From stdpp Require Import base option list strings.

Local Open Scope N_scope.
Set Warnings "-register-all".

(** ** JavaScript values *)

(** A string is its sequence of UTF-16 code units; a [Uint8Array] is its
    sequence of elements. *)
Abbreviation jsstring := (list N) (only parsing).
Abbreviation bytes := (list N) (only parsing).

(** The code units of an ASCII literal. *)
Definition js (s : string) : jsstring :=
  N_of_ascii <$> list_ascii_of_string s.

(** The values [JSON.parse] produces, and [undefined]. *)
Inductive JsVal :=
| JsUndefined
| JsNull
| JsBool (b : bool)
| JsNum (q : Q)
| JsStr (s : jsstring)
| JsArr (items : list JsVal)
| JsObj (props : list (jsstring * JsVal)).

(** ToBoolean. *)
Definition truthy (v : JsVal) : bool :=
  match v with
  | JsUndefined | JsNull => false
  | JsBool b => b
  | JsNum q => negb (Qnum q =? 0)%Z
  | JsStr s => negb (bool_decide (s = []))
  | JsArr _ | JsObj _ => true
  end.

(** [a || b] *)
Definition js_or (a b : JsVal) : JsVal := if truthy a then a else b.

(** ** [Map] and [Set]

    Both iterate in insertion order: a [Map] is the list of its entries,
    a [Set] the list of its elements, oldest first, without repetition. *)

Section Collections.
Context {K V : Type} `{EqDecision K}.

(** Position and value of the entry under [k]. *)
Definition Map_find (m : list (K * V)) (k : K) : option (nat * V) :=
  prod_map id snd <$> list_find (λ kv, kv.1 = k) m.

Definition Map_get (m : list (K * V)) (k : K) : option V :=
  snd <$> Map_find m k.

(** [m.set(k, v)]: overwrite in place, or append. *)
Definition Map_set (m : list (K * V)) (k : K) (v : V) : list (K * V) :=
  match Map_find m k with
  | Some (i, _) => <[i := (k, v)]> m
  | None => m ++ [(k, v)]
  end.

Definition Map_keys (m : list (K * V)) : list K := fst <$> m.

(** [s.add(x)] *)
Definition Set_add (x : K) (s : list K) : list K :=
  if decide (x ∈ s) then s else s ++ [x].

(** [s.delete(x)] *)
Definition Set_delete (x : K) (s : list K) : list K :=
  filter (λ y, y ≠ x) s.
End Collections.

(** [v?.k] for a key that no prototype defines ([name], [color]): an own
    property of an object, [undefined] on anything else. *)
Definition js_get (v : JsVal) (k : jsstring) : JsVal :=
  match v with
  | JsObj props => default JsUndefined (Map_get props k)
  | _ => JsUndefined
  end.

(** ** String methods *)

(** WhiteSpace and LineTerminator code units, the ones [trim] strips. *)
Definition is_space (c : N) : bool :=
  bool_decide (c ∈ [0x09; 0x0A; 0x0B; 0x0C; 0x0D; 0x20; 0xA0; 0x1680;
                    0x2028; 0x2029; 0x202F; 0x205F; 0x3000; 0xFEFF])
  || ((0x2000 <=? c) && (c <=? 0x200A)).

Fixpoint trimStart (s : jsstring) : jsstring :=
  match s with
  | c :: s' => if is_space c then trimStart s' else s
  | [] => []
  end.

Definition trimEnd (s : jsstring) : jsstring :=
  reverse (trimStart (reverse s)).

Definition trim (s : jsstring) : jsstring := trimEnd (trimStart s).

(** [toLowerCase] on the letters A to Z.  Other code units are left as
    they are; the Unicode mapping moves some of them, but none to a letter
    of ["user"] or ["guest"], the only strings the result is compared
    with. *)
Definition lower_unit (c : N) : N :=
  if (0x41 <=? c) && (c <=? 0x5A) then c + 0x20 else c.

Definition toLowerCase (s : jsstring) : jsstring := lower_unit <$> s.

(** [s.startsWith(p)] *)
Definition startsWith (s p : jsstring) : bool :=
  bool_decide (take (length p) s = p).

(** ** Sockets *)

(** A socket object is known by its identity. *)
Definition Conn := nat.

Inductive ReadyState := CONNECTING | OPEN | CLOSING | CLOSED.

#[global] Instance ReadyState_eq_dec : EqDecision ReadyState.
Proof. solve_decision. Defined.

(** What a handler does to the outside: [ws.send(buf)] and
    [socket.destroy()]. *)
Inductive Action :=
| Send (ws : Conn) (buf : bytes)
| Destroy.

(** The second argument of an awareness ["update"] event: the socket the
    change came from, or whatever else the emitter passed. *)
Inductive Origin :=
| OriginConn (ws : Conn)
| OriginOther (label : string).

#[global] Instance Origin_eq_dec : EqDecision Origin.
Proof. solve_decision. Defined.

(** The first argument of the event. *)
Record Changes := mkChanges {
  added : list N;
  updated : list N;
  removed : list N
}.

(** ** The imported libraries *)

Class Capability := {
  (** yjs *)
  Doc : Type;
  (** [new Y.Doc()]; the argument tells one construction from another *)
  new_Doc : nat → Doc;
  (** y-protocols/sync: the bytes [writeSyncStep1] appends *)
  writeSyncStep1 : Doc → bytes;
  (** [readSyncMessage(dec, enc, doc)]: the bytes appended to [enc] and
      the document afterwards, or [None] when it throws *)
  readSyncMessage : bytes → Doc → option (bytes * Doc);
  (** y-protocols/awareness *)
  Awareness : Type;
  new_Awareness : Doc → Awareness;
  getStates : Awareness → list (N * JsVal);
  encodeAwarenessUpdate : Awareness → list N → bytes;
  (** [applyAwarenessUpdate(awareness, update, origin)]: the presence set
      afterwards and the ["update"] event it emitted, if any, whose origin
      is the one passed in; [None] when it throws *)
  applyAwarenessUpdate : Awareness → bytes → option (Awareness * option Changes);
  (** lib0/encoding and lib0/decoding; a reader gives the value and the
      rest of the input, or [None] when it throws *)
  writeVarUint : N → bytes;
  writeVarUint8Array : bytes → bytes;
  readVarUint : bytes → option (N * bytes);
  readVarUint8Array : bytes → option (bytes * bytes);
  (** a number below 128 is written as one byte *)
  writeVarUint_small : ∀ n, n < 128 → writeVarUint n = [n]
}.

Definition MSG_SYNC : N := 0.
Definition MSG_AWARENESS : N := 1.

(** ** One room *)

Section Relay.
Context `{Y : Capability}.

(** The object [{ doc, awareness, conns }] that [getRoom] builds. *)
Record Room := mkRoom {
  doc : Doc;
  awareness : Awareness;
  conns : list Conn
}.

Definition set_doc (d : Doc) (r : Room) : Room :=
  mkRoom d (awareness r) (conns r).
Definition set_awareness (a : Awareness) (r : Room) : Room :=
  mkRoom (doc r) a (conns r).
Definition set_conns (c : list Conn) (r : Room) : Room :=
  mkRoom (doc r) (awareness r) c.

(** The message of the fan-out: the awareness tag, then the encoded
    states of [added.concat(updated, removed)]. *)
Definition changed (ch : Changes) : list N :=
  added ch ++ updated ch ++ removed ch.

Definition awareness_message (aw : Awareness) (ids : list N) : bytes :=
  writeVarUint MSG_AWARENESS ++
  writeVarUint8Array (encodeAwarenessUpdate aw ids).

(** The sockets the loop of the ["update"] listener sends to. *)
Definition recipients (ready : Conn → ReadyState) (cs : list Conn)
    (origin : Origin) : list Conn :=
  filter (λ ws, OriginConn ws ≠ origin ∧ ready ws = OPEN) cs.

(** The listener [getRoom] registers with [awareness.on("update", ...)].
    It closes over the room's [awareness] and [conns]; [ready] gives
    each socket's [readyState] at the time of the event. *)
Definition awareness_on_update (ready : Conn → ReadyState)
    (aw : Awareness) (cs : list Conn) (ch : Changes) (origin : Origin)
    : list Action :=
  let buf := awareness_message aw (changed ch) in
  (λ ws, Send ws buf) <$> recipients ready cs origin.

Definition sendSync (ws : Conn) (d : Doc) : list Action :=
  [Send ws (writeVarUint MSG_SYNC ++ writeSyncStep1 d)].

Definition sendFullAwareness (ws : Conn) (aw : Awareness) : list Action :=
  [Send ws (awareness_message aw (Map_keys (getStates aw)))].

(** [onWSConnection] once the room is at hand: join and greet. *)
Definition bind_connection (room : Room) (ws : Conn) : Room * list Action :=
  (set_conns (Set_add ws (conns room)) room,
   sendSync ws (doc room) ++ sendFullAwareness ws (awareness room)).

(** The ["message"] listener of socket [ws].  [None]: it throws. *)
Definition onMessage (ready : Conn → ReadyState) (room : Room) (ws : Conn)
    (data : bytes) : option (Room * list Action) :=
  '(type, dec) ← readVarUint data;
  if decide (type = MSG_SYNC) then
    '(out, doc') ← readSyncMessage dec (doc room);
    let reply := writeVarUint MSG_SYNC ++ out in
    Some (set_doc doc' room,
          if decide (1 < length reply)%nat then [Send ws reply] else [])
  else if decide (type = MSG_AWARENESS) then
    '(update, _) ← readVarUint8Array dec;
    '(aw', event) ← applyAwarenessUpdate (awareness room) update;
    Some (set_awareness aw' room,
          match event with
          | Some ch =>
              awareness_on_update ready aw' (conns room) ch (OriginConn ws)
          | None => []
          end)
  else Some (room, []).

(** The ["close"] listener of socket [ws]. *)
Definition onClose (room : Room) (ws : Conn) : Room :=
  set_conns (Set_delete ws (conns room)) room.
End Relay.

(** ** The upgrade listener *)

(** The parts of a [URL] object the listener reads;
    [searchParams] in the order of the query string. *)
Record URL := mkURL {
  pathname : jsstring;
  searchParams : list (jsstring * jsstring)
}.

(** [s.replace(/^\/yjs\/?/, "")] *)
Definition strip_yjs (s : jsstring) : jsstring :=
  if startsWith s (js "/yjs") then
    match drop 4 s with
    | c :: rest => if decide (c = 0x2F) then rest else c :: rest
    | [] => []
    end
  else s.

(** [u.searchParams.get("room") || "default"] *)
Definition room_param (u : URL) : jsstring :=
  match Map_get (searchParams u) (js "room") with
  | Some v => if decide (v = []) then js "default" else v
  | None => js "default"
  end.

(** How the listener leaves the request: [socket.destroy()], or
    [wss.handleUpgrade] with a callback that binds the socket to [room]. *)
Inductive Upgraded :=
| Refused
| Handled (room : jsstring).

(** The ["upgrade"] listener.  A request is given by what
    [new URL(request.url, base)] makes of it: a URL, or [None] when the
    constructor throws and the [catch] clause runs. *)
Definition on_upgrade (request : option URL) : Upgraded :=
  match request with
  | Some u =>
      if negb (startsWith (pathname u) (js "/yjs")) then Refused
      else
        let room := strip_yjs (pathname u) in
        Handled (if decide (room = []) then room_param u else room)
  | None => Refused
  end.

(** ** The server *)

Section Server.
Context `{Y : Capability}.

(** [rooms] is the registry.  A room object is made once, when its
    entry is appended, and entries are never removed or replaced, so
    the position of an entry stands for the identity of its room.
    [listeners] records, for each socket that went through
    [onWSConnection], the room its two listeners closed over. *)
Record Server := mkServer {
  rooms : list (jsstring * Room);
  listeners : list (Conn * nat);
  readyState : Conn → ReadyState
}.

Definition start : Server := mkServer [] [] (λ _, CONNECTING).

Definition set_rooms (rs : list (jsstring * Room)) (s : Server) : Server :=
  mkServer rs (listeners s) (readyState s).
Definition set_readyState (ws : Conn) (st : ReadyState) (s : Server)
    : Server :=
  mkServer (rooms s) (listeners s)
    (λ c, if decide (c = ws) then st else readyState s c).

(** The room [new]ly built for the registry's [n]-th entry. *)
Definition fresh_room (n : nat) : Room :=
  let d := new_Doc n in mkRoom d (new_Awareness d) [].

(** [getRoom(name)]: the room (its position) and the registry after. *)
Definition getRoom (s : Server) (name : jsstring) : nat * Server :=
  match Map_find (rooms s) name with
  | Some (r, _) => (r, s)
  | None =>
      (length (rooms s),
       set_rooms (Map_set (rooms s) name (fresh_room (length (rooms s)))) s)
  end.

(** Run a listener on its room and store what it leaves. *)
Definition in_room (s : Server) (r : nat)
    (f : Room → option (Room * list Action)) : option (Server * list Action) :=
  match rooms s !! r with
  | Some (name, room) =>
      '(room', out) ← f room;
      Some (set_rooms (<[r := (name, room')]> (rooms s)) s, out)
  | None => Some (s, [])
  end.

(** [onWSConnection(ws, roomName)] *)
Definition onWSConnection (s : Server) (ws : Conn) (roomName : jsstring)
    : Server * list Action :=
  let '(r, s1) := getRoom s roomName in
  match in_room s1 r (λ room, Some (bind_connection room ws)) with
  | Some (s2, out) =>
      (mkServer (rooms s2) (listeners s2 ++ [(ws, r)]) (readyState s2), out)
  | None => (s1, [])
  end.

(** [ws.emit("message", data)]: the listeners of [ws], in the order
    they were added. *)
Fixpoint emit_message (ls : list (Conn * nat)) (s : Server) (ws : Conn)
    (data : bytes) : option (Server * list Action) :=
  match ls with
  | [] => Some (s, [])
  | (c, r) :: ls' =>
      if decide (c = ws) then
        '(s1, out1) ←
          in_room s r (λ room, onMessage (readyState s) room ws data);
        '(s2, out2) ← emit_message ls' s1 ws data;
        Some (s2, out1 ++ out2)
      else emit_message ls' s ws data
  end.

(** [ws.emit("close")] *)
Fixpoint emit_close (ls : list (Conn * nat)) (s : Server) (ws : Conn)
    : Server :=
  match ls with
  | [] => s
  | (c, r) :: ls' =>
      if decide (c = ws) then
        match rooms s !! r with
        | Some (name, room) =>
            let rooms' := <[r := (name, onClose room ws)]> (rooms s) in
            emit_close ls' (set_rooms rooms' s) ws
        | None => emit_close ls' s ws
        end
      else emit_close ls' s ws
  end.

(** The two messages a connection is greeted with, as they are on the
    wire: the sync request, then the full presence snapshot. *)
Definition greeting (ws : Conn) (room : Room) : list Action :=
  [Send ws (0 :: writeSyncStep1 (doc room));
   Send ws (1 :: writeVarUint8Array
              (encodeAwarenessUpdate (awareness room)
                 (Map_keys (getStates (awareness room)))))].

(** What the event loop delivers. *)
Inductive Event :=
| Upgrade (request : option URL) (handshake : option Conn)
    (** an upgrade request; [handshake] is the socket that
        [handleUpgrade] hands to its callback, if it completes *)
| Message (ws : Conn) (data : bytes)
| Closing (ws : Conn)
    (** the closing handshake of [ws] starts *)
| Close (ws : Conn)
| Announce (r : nat) (aw' : Awareness) (ch : Changes) (label : string)
    (** the presence set of room [r] changes on its own (its timers) to
        [aw'] and emits ["update"] with a label for origin *).

(** One event.  [None]: a listener threw. *)
Definition step (s : Server) (e : Event) : option (Server * list Action) :=
  match e with
  | Upgrade request handshake =>
      match on_upgrade request with
      | Refused => Some (s, [Destroy])
      | Handled room =>
          match handshake with
          | Some ws => Some (onWSConnection (set_readyState ws OPEN s) ws room)
          | None => Some (s, [])
          end
      end
  | Message ws data => emit_message (listeners s) s ws data
  | Closing ws => Some (set_readyState ws CLOSING s, [])
  | Close ws =>
      Some (emit_close (listeners s) (set_readyState ws CLOSED s) ws, [])
  | Announce r aw' ch label =>
      in_room s r (λ room,
        Some (set_awareness aw' room,
              awareness_on_update (readyState s) aw' (conns room) ch
                (OriginOther label)))
  end.

Fixpoint run (s : Server) (es : list Event) : option (Server * list Action) :=
  match es with
  | [] => Some (s, [])
  | e :: es' =>
      '(s1, out1) ← step s e;
      '(s2, out2) ← run s1 es';
      Some (s2, out1 ++ out2)
  end.

(** *** The room directory *)

Record Peer := mkPeer {
  peer_id : N;
  peer_name : jsstring;
  peer_color : JsVal
}.

Record Summary := mkSummary {
  summary_name : jsstring;
  summary_peers : list Peer
}.

(** The callback of [forEach]: what it pushes for one entry of the
    presence set.  [None]: it throws ([trim] of a value that is not a
    string). *)
Definition visit_state (entry : N * JsVal) : option (list Peer) :=
  let '(cid, st) := entry in
  match js_or (js_get st (js "name")) (JsStr []) with
  | JsStr raw =>
      let n := trim raw in
      if bool_decide (n = [])
         || bool_decide (toLowerCase n = js "user")
         || bool_decide (toLowerCase n = js "guest")
      then Some []
      else
        Some [mkPeer cid n
                (js_or (js_get st (js "color")) (JsStr (js "#999")))]
  | _ => None
  end.

Definition room_peers (aw : Awareness) : option (list Peer) :=
  mjoin <$> mapM visit_state (getStates aw).

(** [GET /api/rooms]: the array given to [res.json], or [None] when
    the handler throws and the error middleware answers 500. *)
Definition api_rooms (s : Server) : option (list Summary) :=
  mapM (λ '(name, room), mkSummary name <$> room_peers (awareness room))
       (rooms s).

(** *** The directory as it is described

    A presence entry shows the display name found under [name] (none
    when there is no string there), trimmed.  Placeholders are left
    out: the empty name, and ["user"] and ["guest"] in any case of
    letters. *)

Definition display_name (st : JsVal) : jsstring :=
  match js_get st (js "name") with
  | JsStr n => n
  | _ => []
  end.

Definition same_ignoring_case (a b : jsstring) : Prop :=
  toLowerCase a = toLowerCase b.

Definition placeholder (n : jsstring) : Prop :=
  n = [] ∨ same_ignoring_case n (js "user") ∨ same_ignoring_case n (js "guest").

#[global] Instance placeholder_dec n : Decision (placeholder n).
Proof. unfold placeholder, same_ignoring_case. apply _. Defined.

Definition listed (entry : N * JsVal) : Prop :=
  ¬ placeholder (trim (display_name entry.2)).

Definition triple (entry : N * JsVal) : Peer :=
  mkPeer entry.1 (trim (display_name entry.2))
         (js_or (js_get entry.2 (js "color")) (JsStr (js "#999"))).

Definition directory (s : Server) : list Summary :=
  (λ e, mkSummary e.1 (triple <$> filter listed (getStates (awareness e.2))))
    <$> rooms s.

(** The presence entries of the data model: what is under [name] is a
    string, or is missing or otherwise falsy. *)
Definition name_is_text (st : JsVal) : Prop :=
  match js_get st (js "name") with
  | JsStr _ => True
  | v => truthy v = false
  end.

Definition names_are_text (s : Server) : Prop :=
  ∀ e entry, e ∈ rooms s → entry ∈ getStates (awareness e.2) →
    name_is_text entry.2.
End Server.

(** The part of a path behind the endpoint prefix and one slash. *)
Definition path_remainder (rest : jsstring) : jsstring :=
  match rest with
  | c :: rest' => if decide (c = 0x2F) then rest' else rest
  | [] => []
  end.

(** ** What every reachable state satisfies *)

Section Reach.
Context `{Y : Capability}.

(** The registry without documents and presence sets: names and
    connection sets. *)
Definition shape (s : Server) : list (jsstring * list Conn) :=
  (λ e, (e.1, conns e.2)) <$> rooms s.

(** No name twice and none empty; no socket twice in a connection set,
    and each one there through [onWSConnection]; every listener on a room
    of the registry. *)
Definition tidy (sh : list (jsstring * list Conn)) (ls : list (Conn * nat))
    : Prop :=
  NoDup (fst <$> sh)
  ∧ Forall (λ e, e.1 ≠ []) sh
  ∧ (∀ r name cs, sh !! r = Some (name, cs) →
       NoDup cs ∧ ∀ c, c ∈ cs → (c, r) ∈ ls)
  ∧ (∀ c r, (c, r) ∈ ls → r < length sh)%nat.

Definition well_formed (s : Server) : Prop := tidy (shape s) (listeners s).

Definition reachable (s : Server) : Prop :=
  ∃ es out, run start es = Some (s, out).
End Reach.

(** A string that does not start with white space. *)
Definition starts_clean (s : jsstring) : Prop :=
  match s with
  | c :: _ => is_space c = false
  | [] => True
  end.

(** ** The page script: presence (public/app.js) *)

#[global] Instance same_ignoring_case_dec a b :
  Decision (same_ignoring_case a b).
Proof. unfold same_ignoring_case. apply _. Defined.

(** [el?.value] of a form field: the element may be missing. *)
Definition field_value (el : option jsstring) : JsVal :=
  match el with
  | Some v => JsStr v
  | None => JsUndefined
  end.

(** The state [ensurePresence(cursor)] builds, [{ name, color, cursor }],
    from the name and color fields, the name the session is logged in
    under and the color picked at load.  [None]: [trim] throws. *)
Definition presence_state (nameEl colorEl : option jsstring)
    (authedUser : JsVal) (state_color : jsstring) (cursor : JsVal)
    : option JsVal :=
  match js_or (js_or (field_value nameEl) authedUser) (JsStr []) with
  | JsStr raw =>
      let name := js_or (JsStr (trim raw)) (JsStr (js "user")) in
      let color := js_or (field_value colorEl) (JsStr state_color) in
      let cursor := match cursor with JsUndefined => JsNull | _ => cursor end in
      Some (JsObj [(js "name", name); (js "color", color);
                   (js "cursor", cursor)])
  | _ => None
  end.

(** [ensurePresence(cursor)]: it builds the state and calls
    [awareness.setLocalState] on it.  The call is the library's: it stores
    the state and, before it returns, runs the listeners of the presence
    set, [drawCursorsAndPeers] among them.  It is given as a function,
    [None] when it throws, and its outcome is the outcome of
    [ensurePresence]. *)
Definition ensurePresence {T : Type} (setLocalState : JsVal → option T)
    (nameEl colorEl : option jsstring) (authedUser : JsVal)
    (state_color : jsstring) (cursor : JsVal) : option T :=
  match presence_state nameEl colorEl authedUser state_color cursor with
  | Some st => setLocalState st
  | None => None
  end.

(** An entry of [entriesByName]: a name and a color. *)
Definition Chip : Type := jsstring * JsVal.

(** The callback of [forEach] in [drawCursorsAndPeers], as far as
    [entriesByName] goes (what it paints on the overlay is left out).
    [None]: it throws. *)
Definition note_state (entries : list (jsstring * Chip)) (entry : N * JsVal)
    : option (list (jsstring * Chip)) :=
  let '(cid, st) := entry in
  match js_or (js_get st (js "name")) (JsStr []) with
  | JsStr raw =>
      let name := trim raw in
      let color := js_or (js_get st (js "color")) (JsStr (js "#999")) in
      if bool_decide (name = [])
         || bool_decide (toLowerCase name = js "user")
         || bool_decide (toLowerCase name = js "guest")
      then Some entries
      else Some (Map_set entries name (name, color))
  | _ => None
  end.

Fixpoint forEach_state (states : list (N * JsVal))
    (entries : list (jsstring * Chip)) : option (list (jsstring * Chip)) :=
  match states with
  | [] => Some entries
  | entry :: rest =>
      match note_state entries entry with
      | Some entries' => forEach_state rest entries'
      | None => None
      end
  end.

(** "Ensure we include ourselves even if echo is delayed." *)
Definition include_self (authedUser : JsVal) (colorEl : option jsstring)
    (state_color : jsstring) (entries : list (jsstring * Chip))
    : option (list (jsstring * Chip)) :=
  if truthy authedUser then
    match authedUser with
    | JsStr u =>
        let selfName := trim u in
        if negb (bool_decide (selfName = []))
           && negb (bool_decide (is_Some (Map_get entries selfName)))
        then
          let selfColor := js_or (field_value colorEl) (JsStr state_color) in
          Some (Map_set entries selfName (selfName, selfColor))
        else Some entries
    | _ => None
    end
  else Some entries.

(** The chips and avatars [drawCursorsAndPeers] renders for a presence
    set. *)
Definition peer_chips (states : list (N * JsVal)) (authedUser : JsVal)
    (colorEl : option jsstring) (state_color : jsstring)
    : option (list Chip) :=
  match forEach_state states [] with
  | Some entries =>
      match include_self authedUser colorEl state_color entries with
      | Some entries' => Some (snd <$> entries')
      | None => None
      end
  | None => None
  end.

(** ** A small instance of the libraries

    Enough of lib0, yjs and y-protocols to run the relay on examples:
    LEB128 numbers, a document that logs the updates applied to it, and
    a presence set with per-client clocks.  Nothing proved about the relay
    for every [Capability] depends on it. *)

Module Mini.

(** *** lib0 *)

Fixpoint writeVarUint_go (fuel : nat) (num : N) : bytes :=
  match fuel with
  | O => [N.land 127 num]
  | S fuel' =>
      if 127 <? num
      then N.lor 128 (N.land 127 num) :: writeVarUint_go fuel' (num / 128)
      else [N.land 127 num]
  end.

Definition writeVarUint (num : N) : bytes :=
  writeVarUint_go (N.to_nat (N.size num)) num.

Fixpoint readVarUint_go (arr : bytes) (num mult : N) : option (N * bytes) :=
  match arr with
  | [] => None
  | r :: rest =>
      let num' := num + N.land r 127 * mult in
      if r <? 128 then Some (num', rest)
      else readVarUint_go rest num' (mult * 128)
  end.

Definition readVarUint (arr : bytes) : option (N * bytes) :=
  readVarUint_go arr 0 1.

Definition writeVarUint8Array (b : bytes) : bytes :=
  writeVarUint (N.of_nat (length b)) ++ b.

Definition readVarUint8Array (arr : bytes) : option (bytes * bytes) :=
  '(len, rest) ← readVarUint arr;
  if (N.to_nat len <=? length rest)%nat
  then Some (take (N.to_nat len) rest, drop (N.to_nat len) rest)
  else None.

(** *** The document: its client id and the updates applied so far *)

Record Doc := mkDoc { clientID : N; applied : list bytes }.

Definition new_Doc (n : nat) : Doc := mkDoc (9000 + N.of_nat n) [].

Definition writeSyncStep1 (d : Doc) : bytes :=
  [0] ++ writeVarUint (N.of_nat (length (applied d))).

(** Step 1 is answered with step 2; step 2 and updates are applied. *)
Definition readSyncMessage (dec : bytes) (d : Doc) : option (bytes * Doc) :=
  match dec with
  | 0 :: _ => Some ([1] ++ writeVarUint (N.of_nat (length (applied d))), d)
  | 1 :: upd | 2 :: upd => Some ([], mkDoc (clientID d) (applied d ++ [upd]))
  | _ => None
  end.

(** *** The presence set *)

Record Awareness := mkAwareness {
  local : N;
  states : list (N * JsVal);
  clocks : list (N * N)
}.

Definition new_Awareness (d : Doc) : Awareness :=
  mkAwareness (clientID d) [(clientID d, JsObj [])] [(clientID d, 0)].

(** A state on the wire: [0] for [null], else [1] and the display
    name. *)
Definition write_state (st : option JsVal) : bytes :=
  match st with
  | Some v =>
      match js_get v (js "name") with
      | JsStr n => [1] ++ writeVarUint8Array n
      | _ => [1] ++ writeVarUint8Array []
      end
  | None => [0]
  end.

Definition read_state (arr : bytes) : option (option JsVal * bytes) :=
  match arr with
  | 0 :: rest => Some (None, rest)
  | 1 :: rest =>
      '(n, rest') ← readVarUint8Array rest;
      Some (Some (JsObj [(js "name", JsStr n)]), rest')
  | _ => None
  end.

Definition encodeAwarenessUpdate (aw : Awareness) (ids : list N) : bytes :=
  writeVarUint (N.of_nat (length ids)) ++
  mjoin ((λ id, writeVarUint id
                ++ writeVarUint (default 0 (Map_get (clocks aw) id))
                ++ write_state (Map_get (states aw) id)) <$> ids).

(** One entry of an update, as [applyAwarenessUpdate] treats it. *)
Definition apply_entry (aw : Awareness) (ch : Changes)
    (id clock : N) (st : option JsVal) : Awareness * Changes :=
  let meta := Map_get (clocks aw) id in
  let curr := default 0 meta in
  let known := bool_decide (is_Some (Map_get (states aw) id)) in
  if (curr <? clock) || ((curr =? clock) && bool_decide (st = None) && known)
  then
    match st with
    | None =>
        let aw' :=
          if decide (id = local aw)
          then mkAwareness (local aw) (states aw) (Map_set (clocks aw) id (clock + 1))
          else mkAwareness (local aw) (filter (λ e, e.1 ≠ id) (states aw))
                           (Map_set (clocks aw) id clock) in
        (aw', match meta with
              | Some _ => mkChanges (added ch) (updated ch) (removed ch ++ [id])
              | None => ch
              end)
    | Some v =>
        (mkAwareness (local aw) (Map_set (states aw) id v) (Map_set (clocks aw) id clock),
         match meta with
         | Some _ => mkChanges (added ch) (updated ch ++ [id]) (removed ch)
         | None => mkChanges (added ch ++ [id]) (updated ch) (removed ch)
         end)
    end
  else (aw, ch).

Fixpoint apply_entries (n : nat) (arr : bytes) (aw : Awareness) (ch : Changes)
    : option (Awareness * Changes) :=
  match n with
  | O => Some (aw, ch)
  | S n' =>
      '(id, arr1) ← readVarUint arr;
      '(clock, arr2) ← readVarUint arr1;
      '(st, arr3) ← read_state arr2;
      let '(aw', ch') := apply_entry aw ch id clock st in
      apply_entries n' arr3 aw' ch'
  end.

Definition applyAwarenessUpdate (aw : Awareness) (update : bytes)
    : option (Awareness * option Changes) :=
  '(len, arr) ← readVarUint update;
  '(aw', ch) ← apply_entries (N.to_nat len) arr aw (mkChanges [] [] []);
  Some (aw', if bool_decide (changed ch = []) then None else Some ch).

Lemma writeVarUint_small n : n < 128 → writeVarUint n = [n].
Proof.
  intros Hn. unfold writeVarUint.
  assert (Hland : N.land 127 n = n).
  { rewrite N.land_comm. change 127 with (N.ones 7).
    rewrite N.land_ones. apply N.mod_small. exact Hn. }
  destruct (N.to_nat (N.size n)); simpl.
  - by rewrite Hland.
  - destruct (N.ltb_spec 127 n) as [Hlt | _]; [lia |]. by rewrite Hland.
Qed.

End Mini.

#[global] Instance mini : Capability := {|
  Doc := Mini.Doc;
  new_Doc := Mini.new_Doc;
  writeSyncStep1 := Mini.writeSyncStep1;
  readSyncMessage := Mini.readSyncMessage;
  Awareness := Mini.Awareness;
  new_Awareness := Mini.new_Awareness;
  getStates := Mini.states;
  encodeAwarenessUpdate := Mini.encodeAwarenessUpdate;
  applyAwarenessUpdate := Mini.applyAwarenessUpdate;
  writeVarUint := Mini.writeVarUint;
  writeVarUint8Array := Mini.writeVarUint8Array;
  readVarUint := Mini.readVarUint;
  readVarUint8Array := Mini.readVarUint8Array;
  writeVarUint_small := Mini.writeVarUint_small
|}.

(** ** A session to run

    Sockets 1, 2 and 3 connect to the room ["studio-123"]; the client
    behind socket 1 announces itself as client 7, named Alice. *)

Module Demo.
Definition studio : option URL :=
  Some (mkURL (js "/yjs/studio-123") []).

(** One entry: client 7, clock 1, name ["Alice"]. *)
Definition alice_update : bytes :=
  [1; 7; 1; 1] ++ Mini.writeVarUint8Array (js "Alice").

Definition alice : bytes :=
  [1] ++ Mini.writeVarUint8Array alice_update.

(** A sync request (step 1) and a message of kind 5. *)
Definition sync_request : bytes := [0; 0; 0].
Definition stray : bytes := [5; 1; 2; 3].

Definition join (ws : Conn) : Event := Upgrade studio (Some ws).

(** The server after a run of events from the start. *)
Definition after (es : list Event) : Server :=
  default start (fst <$> run start es).

Definition connection_sets (s : Server) : list (list Conn) :=
  (λ e, conns e.2) <$> rooms s.

Definition presence_ids (s : Server) : list (list N) :=
  (λ e, Map_keys (getStates (awareness e.2))) <$> rooms s.

(** A presence set with two named peers among placeholders. *)
Definition named (n : string) : JsVal := JsObj [(js "name", JsStr (js n))].

Definition crowd : Mini.Awareness :=
  Mini.mkAwareness 9000
    [(9000, JsObj []); (1, named "  Alice "); (2, named "User");
     (3, named "guest"); (4, named "   "); (5, named "GUEST");
     (6, JsObj [(js "name", JsStr (js "Bob")); (js "color", JsStr (js "#00f"))])]
    [].

Definition lobby : Server :=
  mkServer [(js "lobby", mkRoom (Mini.new_Doc 0) crowd [])] [] (λ _, CONNECTING).

(** A room of three sockets, and its presence set once Alice is in. *)
Definition trio : Room :=
  mkRoom (Mini.new_Doc 0) (Mini.new_Awareness (Mini.new_Doc 0)) [1; 2; 3]%nat.

Definition with_alice : Mini.Awareness :=
  Mini.mkAwareness 9000 [(9000, JsObj []); (7, named "Alice")] [(9000, 0); (7, 1)].

(** Socket 2 is closing, the others are open. *)
Definition closing_2 (c : Conn) : ReadyState :=
  if decide (c = 2%nat) then CLOSING else OPEN.
End Demo.

(** ** More of the session *)

Module Tour.
(** A presence entry whose name is the number 5. *)
Definition numbered : Mini.Awareness :=
  Mini.mkAwareness 9000
    [(9000, JsObj []); (3, JsObj [(js "name", JsNum 5)])] [].


(** Two sockets in the studio, and then Alice announced. *)
Definition pair : list Event := [Demo.join 1%nat; Demo.join 2%nat].
Definition told : list Event := pair ++ [Message 1%nat Demo.alice].

(** The studio with the two sockets, before and after. *)
Definition studio_pair : Room :=
  mkRoom (Mini.new_Doc 0) (Mini.new_Awareness (Mini.new_Doc 0)) [1; 2]%nat.
Definition studio_told : Room :=
  mkRoom (Mini.new_Doc 0) Demo.with_alice [1; 2]%nat.
Definition odd_room : Room := mkRoom (Mini.new_Doc 0) numbered [].

Definition odd_lobby : Server :=
  mkServer [(js "lobby", odd_room)] [] (λ _, CONNECTING).

(** The lobby of named peers, and beside it a room with such an entry. *)
Definition two_rooms : Server :=
  mkServer [(js "lobby", mkRoom (Mini.new_Doc 0) Demo.crowd []);
            (js "attic", odd_room)] [] (λ _, CONNECTING).

(** What a run gives, from the start. *)
Definition sent (es : list Event) : list Action :=
  default [] (snd <$> run start es).

(** The fields of the page: a name with white space around it, no name
    at all. *)
Definition ann : option JsVal :=
  presence_state (Some (js "  Ann ")) (Some (js "#123456")) JsNull
    (js "#abcdef") JsUndefined.

Definition nobody : option JsVal :=
  presence_state (Some (js "   ")) None JsNull (js "#abcdef") JsNull.

(** A presence set that holds the state set and nothing else, and tells
    the page's listener, [drawCursorsAndPeers], of it: the chips drawn. *)
Definition redraw (authedUser : JsVal) (st : JsVal) : option (list Chip) :=
  peer_chips [(1, st)] authedUser (Some (js "#123456")) (js "#abcdef").
End Tour.

(** * Properties *)

Local Close Scope N_scope.

(** ** Collections *)

Section CollectionFacts.
Context {K V : Type} `{EqDecision K}.
Implicit Types (m : list (K * V)) (s : list K).

Lemma Map_find_Some m k i v :
  Map_find m k = Some (i, v) ↔
    m !! i = Some (k, v) ∧ ∀ j e, m !! j = Some e → j < i → e.1 ≠ k.
Proof.
  unfold Map_find. rewrite fmap_Some. split.
  - intros [[j [k' v']] [Hfind Heq]]. simpl in Heq. simplify_eq.
    apply list_find_Some in Hfind as (Hl & Hk & Hmin).
    simpl in Hk. subst k'. split; [done | exact Hmin].
  - intros [Hl Hmin]. exists (i, (k, v)). split; [| done].
    apply list_find_Some. split_and!; [done | done | exact Hmin].
Qed.

Lemma Map_find_None m k : Map_find m k = None ↔ k ∉ Map_keys m.
Proof.
  unfold Map_find, Map_keys. rewrite fmap_None, list_find_None, Forall_forall.
  rewrite list_elem_of_fmap. split.
  - intros Hall (e & -> & He). by apply (Hall e).
  - intros Hno e He Hk. apply Hno. by exists e.
Qed.

Lemma Map_find_lookup m k i v : Map_find m k = Some (i, v) → m !! i = Some (k, v).
Proof. intros Hf. by apply Map_find_Some in Hf as [? _]. Qed.

(** The entry found under a key depends on the keys alone, and stays
    where it is when entries are appended. *)
Lemma Map_find_keys_prefix m m' k i v :
  Map_find m k = Some (i, v) →
  Map_keys m `prefix_of` Map_keys m' →
  ∃ v', Map_find m' k = Some (i, v').
Proof.
  intros [Hl Hmin]%Map_find_Some [ks Hks].
  assert (Hkey : ∀ j, (j < length m)%nat → Map_keys m' !! j = Map_keys m !! j).
  { intros j Hj. rewrite Hks, lookup_app_l; [done |].
    unfold Map_keys. by rewrite length_fmap. }
  assert (Hi : (i < length m)%nat) by (by eapply lookup_lt_Some).
  assert (Hm' : Map_keys m' !! i = Some k).
  { rewrite Hkey by done. unfold Map_keys. by rewrite list_lookup_fmap, Hl. }
  unfold Map_keys in Hm'. rewrite list_lookup_fmap in Hm'.
  destruct (m' !! i) as [[k' v'] |] eqn:Hl'; simplify_eq/=.
  exists v'. apply Map_find_Some. split; [done |].
  intros j e Hj Hlt Hk.
  assert (Hj' : Map_keys m !! j = Some k).
  { rewrite <- Hkey by lia. unfold Map_keys. by rewrite list_lookup_fmap, Hj, <- Hk. }
  unfold Map_keys in Hj'. rewrite list_lookup_fmap in Hj'.
  destruct (m !! j) as [e' |] eqn:Hmj; simplify_eq/=.
  by apply (Hmin j e').
Qed.

Lemma Map_set_absent m k v : Map_find m k = None → Map_set m k v = m ++ [(k, v)].
Proof. unfold Map_set. by intros ->. Qed.

Lemma Map_find_set_absent m k v :
  Map_find m k = None → Map_find (m ++ [(k, v)]) k = Some (length m, v).
Proof.
  intros Hnone. apply Map_find_Some. split.
  - by rewrite lookup_app_r, Nat.sub_diag.
  - intros j e Hj Hlt Hk. apply Map_find_None in Hnone. apply Hnone.
    rewrite lookup_app_l in Hj by done.
    unfold Map_keys. apply list_elem_of_fmap. exists e. split; [done |].
    by eapply list_elem_of_lookup_2.
Qed.

Lemma Set_add_elem x s : x ∈ Set_add x s.
Proof. unfold Set_add. case_decide; [done |]. apply elem_of_app. right. by left. Qed.

Lemma Set_add_keeps x y s : y ∈ s → y ∈ Set_add x s.
Proof. unfold Set_add. case_decide; [done |]. intros. apply elem_of_app. by left. Qed.

Lemma Set_delete_elem x y s : y ∈ Set_delete x s ↔ y ∈ s ∧ y ≠ x.
Proof. unfold Set_delete. rewrite list_elem_of_filter. tauto. Qed.

Lemma Set_delete_gone x s : x ∉ Set_delete x s.
Proof. rewrite Set_delete_elem. tauto. Qed.

Lemma Set_delete_twice x s : Set_delete x (Set_delete x s) = Set_delete x s.
Proof.
  unfold Set_delete. rewrite list_filter_filter.
  apply list_filter_iff. tauto.
Qed.
End CollectionFacts.

(** ** The listeners of one room *)

Section RoomFacts.
Context `{Y : Capability}.
Implicit Types (ready : Conn → ReadyState) (room : Room) (ws c : Conn).

Lemma tag_sync : writeVarUint MSG_SYNC = [0%N].
Proof. by apply writeVarUint_small. Qed.

Lemma tag_awareness : writeVarUint MSG_AWARENESS = [1%N].
Proof. by apply writeVarUint_small. Qed.

Lemma recipients_elem ready cs origin c :
  c ∈ recipients ready cs origin ↔
    c ∈ cs ∧ OriginConn c ≠ origin ∧ ready c = OPEN.
Proof. unfold recipients. rewrite list_elem_of_filter. tauto. Qed.

Lemma fanout_elem ready aw cs ch origin a :
  a ∈ awareness_on_update ready aw cs ch origin ↔
    ∃ c, a = Send c (awareness_message aw (changed ch))
         ∧ c ∈ cs ∧ OriginConn c ≠ origin ∧ ready c = OPEN.
Proof.
  unfold awareness_on_update. rewrite list_elem_of_fmap.
  by setoid_rewrite recipients_elem.
Qed.

Lemma recipients_open ready cs origin :
  recipients ready (filter (λ c, ready c = OPEN) cs) origin
  = recipients ready cs origin.
Proof.
  unfold recipients. rewrite list_filter_filter.
  apply list_filter_iff. tauto.
Qed.

(** How each branch of the message listener unfolds. *)
Lemma onMessage_sync ready room ws data dec :
  readVarUint data = Some (MSG_SYNC, dec) →
  onMessage ready room ws data =
    '(out, doc') ← readSyncMessage dec (doc room);
    Some (set_doc doc' room,
          if decide (out = []) then [] else [Send ws (0%N :: out)]).
Proof.
  intros Htag. unfold onMessage. rewrite Htag. simpl.
  destruct (readSyncMessage dec (doc room)) as [[out doc'] |]; [| done].
  simpl. rewrite tag_sync.
  destruct out as [| b out]; simpl; repeat case_decide;
    simpl in *; done || lia.
Qed.

Lemma onMessage_awareness ready room ws data dec :
  readVarUint data = Some (MSG_AWARENESS, dec) →
  onMessage ready room ws data =
    '(update, _) ← readVarUint8Array dec;
    '(aw', event) ← applyAwarenessUpdate (awareness room) update;
    Some (set_awareness aw' room,
          match event with
          | Some ch =>
              awareness_on_update ready aw' (conns room) ch (OriginConn ws)
          | None => []
          end).
Proof. intros Htag. unfold onMessage. by rewrite Htag. Qed.

Lemma onMessage_other ready room ws data type dec :
  readVarUint data = Some (type, dec) →
  type ≠ MSG_SYNC → type ≠ MSG_AWARENESS →
  onMessage ready room ws data = Some (room, []).
Proof.
  intros Htag Hs Ha. unfold onMessage. rewrite Htag. simpl.
  by rewrite !decide_False.
Qed.

(** C10. The fan-out of a presence delta sends the encoded delta to
    sockets of the room's connection set whose [readyState] is [OPEN],
    and to no other socket.  A socket of the set that is closing or
    closed is passed over: every open socket other than the origin still
    gets the delta, and the fan-out is the one there would be with the
    stale sockets out of the set. *)
Theorem fanout_reaches_only_open_sockets ready aw cs ch origin :
  let out := awareness_on_update ready aw cs ch origin in
  let buf := awareness_message aw (changed ch) in
  (∀ a, a ∈ out → ∃ c, a = Send c buf ∧ c ∈ cs ∧ ready c = OPEN)
  ∧ (∀ c b, ready c ≠ OPEN → Send c b ∉ out)
  ∧ (∀ c, c ∈ cs → OriginConn c ≠ origin → ready c = OPEN → Send c buf ∈ out)
  ∧ out = awareness_on_update ready aw (filter (λ c, ready c = OPEN) cs) ch origin.
Proof.
  intros out buf. subst out buf. split_and!.
  - intros a (c & -> & Hc & _ & Hopen)%fanout_elem. by exists c.
  - intros c b Hstale (c' & Heq & _ & _ & Hopen)%fanout_elem.
    by simplify_eq.
  - intros c Hc Ho Hopen. apply fanout_elem. by exists c.
  - unfold awareness_on_update. by rewrite recipients_open.
Qed.

(** C1, amended. When a presence delta sent by socket [ws] is applied
    and the presence set announces a change, the encoded delta of the
    changed identifiers goes to every socket of the room's connection
    set that is open and is not [ws]; every message sent is that delta,
    to a socket of the set other than [ws]; nothing is sent to [ws]. *)
Theorem presence_delta_not_echoed ready room ws data dec update rest aw' ch :
  readVarUint data = Some (MSG_AWARENESS, dec) →
  readVarUint8Array dec = Some (update, rest) →
  applyAwarenessUpdate (awareness room) update = Some (aw', Some ch) →
  let buf := awareness_message aw' (added ch ++ updated ch ++ removed ch) in
  ∃ out, onMessage ready room ws data = Some (set_awareness aw' room, out)
    ∧ (∀ c, c ∈ conns room → c ≠ ws → ready c = OPEN → Send c buf ∈ out)
    ∧ (∀ a, a ∈ out → ∃ c, a = Send c buf ∧ c ∈ conns room ∧ c ≠ ws)
    ∧ (∀ b, Send ws b ∉ out).
Proof.
  intros Htag Hupd Happly buf.
  rewrite (onMessage_awareness _ _ _ _ _ Htag), Hupd. simpl.
  rewrite Happly. simpl. eexists. split; [reflexivity |]. split_and!.
  - intros c Hc Hne Hopen. apply fanout_elem. exists c.
    split_and!; [done | done | congruence | done].
  - intros a (c & -> & Hc & Ho & _)%fanout_elem. exists c.
    split_and!; [done | done | congruence].
  - intros b (c & Heq & _ & Ho & _)%fanout_elem. by simplify_eq.
Qed.

(** C5. A sync message from socket [ws] is applied to the room's
    document; the presence set and the connection set stay as they are.
    A response that is not empty is sent, behind the sync tag, to [ws];
    an empty one is not sent; no other socket is sent anything. *)
Theorem sync_reply_goes_to_sender_only ready room ws data dec out doc' :
  readVarUint data = Some (MSG_SYNC, dec) →
  readSyncMessage dec (doc room) = Some (out, doc') →
  ∃ acts,
    onMessage ready room ws data
      = Some (mkRoom doc' (awareness room) (conns room), acts)
    ∧ (out ≠ [] → acts = [Send ws (0%N :: out)])
    ∧ (out = [] → acts = [])
    ∧ (∀ c b, Send c b ∈ acts → c = ws ∧ b = 0%N :: out).
Proof.
  intros Htag Hread.
  rewrite (onMessage_sync _ _ _ _ _ Htag), Hread. simpl.
  eexists. split; [reflexivity |]. case_decide as Hout.
  - split_and!; [done | done |]. by intros c b ?%elem_of_nil.
  - split_and!; [done | done |].
    intros c b Hin%list_elem_of_singleton. by simplify_eq.
Qed.

(** Whatever an awareness message does, its sender is sent nothing. *)
Lemma onMessage_awareness_silent ready room ws data dec room' out :
  readVarUint data = Some (MSG_AWARENESS, dec) →
  onMessage ready room ws data = Some (room', out) →
  ∀ b, Send ws b ∉ out.
Proof.
  intros Htag. rewrite (onMessage_awareness _ _ _ _ _ Htag).
  destruct (readVarUint8Array dec) as [[update rest] |]; simpl; [| done].
  destruct (applyAwarenessUpdate (awareness room) update)
    as [[aw' [ch |]] |]; simpl; [| | done].
  - intros [= <- <-] b (c & Heq & _ & Ho & _)%fanout_elem. by simplify_eq.
  - intros [= <- <-] b Hin. by apply elem_of_nil in Hin.
Qed.

(** The close listener, field by field. *)
Lemma onClose_fields room ws :
  doc (onClose room ws) = doc room
  ∧ awareness (onClose room ws) = awareness room
  ∧ conns (onClose room ws) = Set_delete ws (conns room).
Proof. done. Qed.

Lemma onClose_twice room ws : onClose (onClose room ws) ws = onClose room ws.
Proof. unfold onClose, set_conns. simpl. by rewrite Set_delete_twice. Qed.
End RoomFacts.

(** ** The registry *)

Section ServerFacts.
Context `{Y : Capability}.
Implicit Types (s : Server) (ws : Conn) (r : nat) (name : jsstring).

Lemma set_rooms_same s : set_rooms (rooms s) s = s.
Proof. by destruct s. Qed.

Lemma Map_keys_insert (m : list (jsstring * Room)) r name room room' :
  m !! r = Some (name, room) →
  Map_keys (<[r := (name, room')]> m) = Map_keys m.
Proof.
  intros Hl. unfold Map_keys. rewrite list_fmap_insert. simpl.
  apply list_insert_id. by rewrite list_lookup_fmap, Hl.
Qed.

(** [getRoom] finds the room stored under the name, or appends a new
    one; either way the name then leads to the room returned. *)
Lemma getRoom_found s name r room :
  Map_find (rooms s) name = Some (r, room) → getRoom s name = (r, s).
Proof. unfold getRoom. by intros ->. Qed.

Lemma getRoom_absent s name :
  Map_find (rooms s) name = None →
  getRoom s name =
    (length (rooms s),
     set_rooms (rooms s ++ [(name, fresh_room (length (rooms s)))]) s).
Proof.
  intros Hnone. unfold getRoom. rewrite Hnone.
  by rewrite Map_set_absent.
Qed.

Lemma getRoom_post s name :
  ∃ room,
    Map_find (rooms (getRoom s name).2) name = Some ((getRoom s name).1, room)
    ∧ listeners (getRoom s name).2 = listeners s
    ∧ readyState (getRoom s name).2 = readyState s
    ∧ Map_keys (rooms s) `prefix_of` Map_keys (rooms (getRoom s name).2).
Proof.
  destruct (Map_find (rooms s) name) as [[r room] |] eqn:Hfind.
  - rewrite (getRoom_found _ _ _ _ Hfind). simpl. by exists room.
  - rewrite (getRoom_absent _ _ Hfind). simpl.
    exists (fresh_room (length (rooms s))).
    split_and!; [by apply Map_find_set_absent | done | done |].
    unfold Map_keys. rewrite fmap_app. by apply prefix_app_r.
Qed.

Lemma in_room_keys s r f s' out :
  in_room s r f = Some (s', out) →
  Map_keys (rooms s') = Map_keys (rooms s)
  ∧ listeners s' = listeners s ∧ readyState s' = readyState s.
Proof.
  unfold in_room. destruct (rooms s !! r) as [[name room] |] eqn:Hl.
  - destruct (f room) as [[room' o] |]; simpl; [| done].
    intros [= <- <-]. simpl. by rewrite (Map_keys_insert _ _ _ _ _ Hl).
  - by intros [= <- <-].
Qed.

Lemma in_room_idle s r f :
  (∀ room, f room = Some (room, [])) → in_room s r f = Some (s, []).
Proof.
  intros Hf. unfold in_room.
  destruct (rooms s !! r) as [[name room] |] eqn:Hl; [| done].
  rewrite Hf. simpl. by rewrite list_insert_id, set_rooms_same.
Qed.

Lemma bind_connection_out room ws :
  (bind_connection room ws).2 = greeting ws room.
Proof.
  unfold bind_connection, sendSync, sendFullAwareness, awareness_message.
  simpl. by rewrite tag_sync, tag_awareness.
Qed.

Lemma onWSConnection_unfold s ws name room :
  rooms (getRoom s name).2 !! (getRoom s name).1 = Some (name, room) →
  onWSConnection s ws name =
    (mkServer
       (<[(getRoom s name).1 :=
            (name, mkRoom (doc room) (awareness room) (Set_add ws (conns room)))]>
          (rooms (getRoom s name).2))
       (listeners s ++ [(ws, (getRoom s name).1)])
       (readyState s),
     greeting ws room).
Proof.
  intros Hl. unfold onWSConnection.
  destruct (getRoom_post s name) as (_ & _ & Hls & Hrs & _).
  destruct (getRoom s name) as [r s1]. simpl in *.
  unfold in_room. rewrite Hl. simpl.
  rewrite <- Hls, <- Hrs. f_equal.
  by rewrite <- bind_connection_out.
Qed.

Lemma onWSConnection_keys s ws name :
  Map_keys (rooms s) `prefix_of` Map_keys (rooms (onWSConnection s ws name).1)
  ∧ readyState (onWSConnection s ws name).1 = readyState s.
Proof.
  destruct (getRoom_post s name) as (room & Hfind & _ & _ & Hpre).
  apply Map_find_lookup in Hfind.
  rewrite (onWSConnection_unfold _ _ _ _ Hfind). simpl.
  by rewrite (Map_keys_insert _ _ _ _ _ Hfind).
Qed.
End ServerFacts.

(** ** Events *)

Section EventFacts.
Context `{Y : Capability}.
Implicit Types (s : Server) (ws : Conn) (r : nat) (name : jsstring).

Lemma emit_message_keys ls : ∀ s ws data s' out,
  emit_message ls s ws data = Some (s', out) →
  Map_keys (rooms s') = Map_keys (rooms s)
  ∧ listeners s' = listeners s ∧ readyState s' = readyState s.
Proof.
  induction ls as [| [c r] ls IH]; intros s ws data s' out; simpl.
  - by intros [= <- <-].
  - case_decide; [| by apply IH].
    destruct (in_room s r _) as [[s1 out1] |] eqn:H1; simpl; [| done].
    destruct (emit_message ls s1 ws data) as [[s2 out2] |] eqn:H2; simpl; [| done].
    intros [= <- <-].
    apply in_room_keys in H1 as (Hk1 & Hl1 & Hr1).
    apply IH in H2 as (Hk2 & Hl2 & Hr2). split_and!; congruence.
Qed.

Lemma emit_message_idle ls : ∀ s ws data type dec,
  readVarUint data = Some (type, dec) →
  type ≠ MSG_SYNC → type ≠ MSG_AWARENESS →
  emit_message ls s ws data = Some (s, []).
Proof.
  induction ls as [| [c r] ls IH]; intros s ws data type dec Htag Hs Ha; simpl.
  - done.
  - case_decide; [| by eapply IH].
    rewrite in_room_idle by (intros; by eapply onMessage_other).
    simpl. by rewrite (IH _ _ _ _ _ Htag Hs Ha).
Qed.

(** The same holds of the whole of [ws.emit("message", data)]. *)
Lemma emit_message_awareness_silent ls : ∀ s ws data dec s' out,
  readVarUint data = Some (MSG_AWARENESS, dec) →
  emit_message ls s ws data = Some (s', out) →
  ∀ b, Send ws b ∉ out.
Proof.
  induction ls as [| [c r] ls IH]; intros s ws data dec s' out Htag; simpl.
  - intros [= <- <-] b Hin. by apply elem_of_nil in Hin.
  - case_decide; [| by eapply IH].
    destruct (in_room s r _) as [[s1 out1] |] eqn:H1; simpl; [| done].
    destruct (emit_message ls s1 ws data) as [[s2 out2] |] eqn:H2;
      simpl; [| done].
    intros [= <- <-] b [Hin | Hin]%elem_of_app.
    + unfold in_room in H1.
      destruct (rooms s !! r) as [[name room] |];
        [| simplify_eq; by apply elem_of_nil in Hin].
      destruct (onMessage (readyState s) room ws data)
        as [[room' o] |] eqn:Hm; simplify_eq/=.
      by eapply onMessage_awareness_silent.
    + by eapply IH.
Qed.

(** What the close listeners of [ws] leave of the registry: a room is
    the one before, less [ws] in its connection set if a listener of
    [ws] closed over it. *)
Lemma emit_close_rooms ls ws : ∀ s,
  listeners (emit_close ls s ws) = listeners s
  ∧ readyState (emit_close ls s ws) = readyState s
  ∧ length (rooms (emit_close ls s ws)) = length (rooms s)
  ∧ ∀ r name room, rooms s !! r = Some (name, room) →
      rooms (emit_close ls s ws) !! r
      = Some (name, if decide ((ws, r) ∈ ls) then onClose room ws else room).
Proof.
  induction ls as [| [c r0] ls IH]; intros s; cbn [emit_close].
  - split_and!; [done.. |]. intros r name room Hl.
    case_decide as Hin; [by apply elem_of_nil in Hin | by rewrite Hl].
  - destruct (decide (c = ws)) as [-> | Hne].
    + destruct (rooms s !! r0) as [[n0 room0] |] eqn:Hr0.
      * destruct (IH (set_rooms (<[r0 := (n0, onClose room0 ws)]> (rooms s)) s))
          as (Hls & Hrs & Hlen & Hrooms).
        simpl in *. rewrite length_insert in Hlen.
        split_and!; [done.. |]. intros r name room Hl.
        destruct (decide (r = r0)) as [-> | Hr].
        -- rewrite Hl in Hr0. injection Hr0 as <- <-.
           rewrite (Hrooms r0 name (onClose room ws)).
           ++ rewrite onClose_twice.
              rewrite (decide_True (P := (ws, r0) ∈ (ws, r0) :: ls)) by left.
              by case_decide.
           ++ apply list_lookup_insert_eq. by eapply lookup_lt_Some.
        -- rewrite (Hrooms r name room)
             by (by rewrite list_lookup_insert_ne).
           f_equal. f_equal. apply decide_ext.
           rewrite elem_of_cons. split; [by right |].
           intros [[= ->] | ?]; [congruence | done].
      * destruct (IH s) as (Hls & Hrs & Hlen & Hrooms).
        split_and!; [done.. |]. intros r name room Hl.
        rewrite (Hrooms r name room Hl). f_equal. f_equal. apply decide_ext.
        rewrite elem_of_cons. split; [by right |].
        intros [[= ->] | ?]; [congruence | done].
    + destruct (IH s) as (Hls & Hrs & Hlen & Hrooms).
      split_and!; [done.. |]. intros r name room Hl.
      rewrite (Hrooms r name room Hl). f_equal. f_equal. apply decide_ext.
      rewrite elem_of_cons. split; [by right |].
      intros [[= -> ->] | ?]; [congruence | done].
Qed.

Lemma lookup_keys (m m' : list (jsstring * Room)) :
  length m' = length m →
  (∀ r e, m !! r = Some e → ∃ e', m' !! r = Some e' ∧ e'.1 = e.1) →
  Map_keys m' = Map_keys m.
Proof.
  intros Hlen Hsame. unfold Map_keys. apply list_eq. intros r.
  rewrite !list_lookup_fmap.
  destruct (m !! r) as [e |] eqn:Hl.
  - destruct (Hsame r e Hl) as (e' & -> & He). simpl. by rewrite He.
  - apply lookup_ge_None in Hl. rewrite <- Hlen in Hl.
    apply lookup_ge_None in Hl. by rewrite Hl.
Qed.

Lemma emit_close_keys ls ws s :
  Map_keys (rooms (emit_close ls s ws)) = Map_keys (rooms s).
Proof.
  destruct (emit_close_rooms ls ws s) as (_ & _ & Hlen & Hrooms).
  apply lookup_keys; [done |]. intros r [name room] Hl.
  rewrite (Hrooms r name room Hl). by eexists.
Qed.

(** An event leaves the names of the registry where they are, and may
    append one. *)
Lemma step_keys s e s' out :
  step s e = Some (s', out) →
  Map_keys (rooms s) `prefix_of` Map_keys (rooms s').
Proof.
  destruct e as [request handshake | ws data | ws | ws | r aw' ch label]; simpl.
  - destruct (on_upgrade request) as [| room]; [by intros [= <- <-] |].
    destruct handshake as [ws |]; [| by intros [= <- <-]].
    intros [= Heq]. apply (f_equal fst) in Heq. simpl in Heq. subst s'.
    apply (onWSConnection_keys (set_readyState ws OPEN s)).
  - intros (-> & _)%emit_message_keys. done.
  - by intros [= <- <-].
  - intros [= <- <-]. by rewrite emit_close_keys.
  - intros (-> & _)%in_room_keys. done.
Qed.

(** No event gives a name a second entry. *)
Lemma step_names_distinct s e s' out :
  step s e = Some (s', out) →
  NoDup (Map_keys (rooms s)) → NoDup (Map_keys (rooms s')).
Proof.
  destruct e as [request handshake | ws data | ws | ws | r aw' ch label];
    cbn [step].
  - destruct (on_upgrade request) as [| name]; [by intros [= <- <-] |].
    destruct handshake as [ws |]; [| by intros [= <- <-]].
    intros [= Heq] Hnd. apply (f_equal fst) in Heq. simpl in Heq. subst s'.
    set (s0 := set_readyState ws OPEN s).
    destruct (getRoom_post s0 name) as (room & Hfind & _ & _ & _).
    apply Map_find_lookup in Hfind.
    rewrite (onWSConnection_unfold _ _ _ _ Hfind). simpl.
    rewrite (Map_keys_insert _ _ _ _ _ Hfind).
    destruct (Map_find (rooms s0) name) as [[r room0] |] eqn:Hs.
    + by rewrite (getRoom_found _ _ _ _ Hs).
    + rewrite (getRoom_absent _ _ Hs). simpl.
      unfold Map_keys. rewrite fmap_app. simpl.
      apply NoDup_app. split_and!; [done | | apply NoDup_singleton].
      intros k Hk ->%list_elem_of_singleton.
      by apply Map_find_None in Hs.
  - intros (-> & _)%emit_message_keys. done.
  - by intros [= <- <-].
  - intros [= <- <-]. by rewrite emit_close_keys.
  - intros (-> & _)%in_room_keys. done.
Qed.

Lemma registry_names_distinct es : ∀ s s' out,
  run s es = Some (s', out) →
  NoDup (Map_keys (rooms s)) → NoDup (Map_keys (rooms s')).
Proof.
  induction es as [| e es IH]; intros s s' out; simpl.
  - by intros [= <- <-].
  - destruct (step s e) as [[s1 out1] |] eqn:H1; simpl; [| done].
    destruct (run s1 es) as [[s2 out2] |] eqn:H2; simpl; [| done].
    intros [= <- <-] Hnd. eapply IH; [done |]. by eapply step_names_distinct.
Qed.

Lemma run_keys es : ∀ s s' out,
  run s es = Some (s', out) →
  Map_keys (rooms s) `prefix_of` Map_keys (rooms s').
Proof.
  induction es as [| e es IH]; intros s s' out; simpl.
  - by intros [= <- <-].
  - destruct (step s e) as [[s1 out1] |] eqn:H1; simpl; [| done].
    destruct (run s1 es) as [[s2 out2] |] eqn:H2; simpl; [| done].
    intros [= <- <-]. etrans; [by eapply step_keys | by eapply IH].
Qed.
End EventFacts.

(** ** The relay *)

Section RelayTheorems.
Context `{Y : Capability}.
Implicit Types (s : Server) (ws : Conn) (r : nat) (name : jsstring).

Lemma greeting_onClose ws' room ws :
  greeting ws' (onClose room ws) = greeting ws' room.
Proof. done. Qed.

(** C3. [getRoom] returns the room stored under the name when there is
    one, and leaves the registry as it is.  Otherwise it appends, under
    the name, a room with a new document, a new presence set on it and
    no connection, and returns that.  Calling it again returns the same
    room and changes nothing, right away or after any run of events, and
    a connection bound to the name later closes over that same room. *)
Theorem getRoom_one_room_per_name s name es s' out :
  run (getRoom s name).2 es = Some (s', out) →
  (∀ r room, Map_find (rooms s) name = Some (r, room) → getRoom s name = (r, s))
  ∧ (Map_find (rooms s) name = None →
       getRoom s name =
         (length (rooms s),
          mkServer
            (rooms s ++
               [(name, mkRoom (new_Doc (length (rooms s)))
                              (new_Awareness (new_Doc (length (rooms s)))) [])])
            (listeners s) (readyState s)))
  ∧ getRoom (getRoom s name).2 name = getRoom s name
  ∧ getRoom s' name = ((getRoom s name).1, s')
  ∧ ∀ ws, listeners (onWSConnection s' ws name).1
          = listeners s' ++ [(ws, (getRoom s name).1)].
Proof.
  intros Hrun.
  destruct (getRoom_post s name) as (room & Hfind & _ & _ & _).
  assert (Hlater : getRoom s' name = ((getRoom s name).1, s')).
  { destruct (Map_find_keys_prefix _ (rooms s') _ _ _ Hfind) as [room' Hfind'].
    - by eapply run_keys.
    - by apply (getRoom_found _ _ _ room'). }
  split_and!.
  - intros r room0 Hf. by apply (getRoom_found _ _ _ room0).
  - intros Hnone. by rewrite (getRoom_absent _ _ Hnone).
  - rewrite (getRoom_found _ _ _ _ Hfind). by destruct (getRoom s name).
  - done.
  - intros ws.
    destruct (getRoom_post s' name) as (room' & Hfind' & _ & _ & _).
    apply Map_find_lookup in Hfind'.
    rewrite (onWSConnection_unfold _ _ _ _ Hfind'). simpl.
    by rewrite Hlater.
Qed.


(** C8. A message whose kind tag is neither 0 nor 1 does nothing: the
    listener returns without throwing, every room is left with the
    document, presence set and connection set it had, nothing is sent
    and no socket is closed. *)
Theorem unknown_tag_is_ignored s ws data type dec :
  readVarUint data = Some (type, dec) →
  type ≠ 0%N → type ≠ 1%N →
  step s (Message ws data) = Some (s, [])
  ∧ ∀ ready room, onMessage ready room ws data = Some (room, []).
Proof.
  intros Htag Hs Ha. split.
  - simpl. by eapply emit_message_idle.
  - intros ready room. by eapply onMessage_other.
Qed.

Lemma step_close s ws :
  step s (Close ws)
  = Some (emit_close (listeners s) (set_readyState ws CLOSED s) ws, []).
Proof. done. Qed.

(** C9. The close listener of a socket changes nothing but connection
    sets: it takes the socket out of the connection set of the room it
    closed over.  Documents and presence sets are what they were, no
    room appears or disappears, and nothing is sent. *)
Theorem close_changes_connection_sets_only s ws :
  (∀ room, onClose room ws
           = mkRoom (doc room) (awareness room) (Set_delete ws (conns room)))
  ∧ ∃ s', step s (Close ws) = Some (s', [])
      ∧ length (rooms s') = length (rooms s)
      ∧ ∀ r name room, rooms s !! r = Some (name, room) →
          ∃ room', rooms s' !! r = Some (name, room')
            ∧ doc room' = doc room
            ∧ awareness room' = awareness room
            ∧ conns room' = if decide ((ws, r) ∈ listeners s)
                            then Set_delete ws (conns room) else conns room.
Proof.
  split; [done |]. eexists. split; [apply step_close |].
  destruct (emit_close_rooms (listeners s) ws (set_readyState ws CLOSED s))
    as (_ & _ & Hlen & Hrooms).
  split; [done |]. intros r name room Hl.
  eexists. split; [by apply Hrooms |]. by case_decide.
Qed.

(** C2, amended. When the transport of a socket closes, the socket is
    taken out of the connection set of the room it was bound to.  The
    close listener sends nothing and leaves every presence set as it is:
    the entries a room had are still there, and a socket that joins
    afterwards is greeted with the same snapshot as one that had joined
    just before the close. *)
Theorem close_drops_handle_keeps_presence s ws :
  ∃ s', step s (Close ws) = Some (s', [])
    ∧ (∀ r name room', (ws, r) ∈ listeners s →
         rooms s' !! r = Some (name, room') → ws ∉ conns room')
    ∧ (∀ r name room, rooms s !! r = Some (name, room) →
         ∃ room', rooms s' !! r = Some (name, room')
           ∧ getStates (awareness room') = getStates (awareness room))
    ∧ (∀ ws' name, (onWSConnection s' ws' name).2 = (onWSConnection s ws' name).2).
Proof.
  eexists. split; [apply step_close |].
  set (s0 := set_readyState ws CLOSED s).
  set (s' := emit_close (listeners s) s0 ws).
  destruct (emit_close_rooms (listeners s) ws s0) as (_ & _ & Hlen & Hrooms).
  fold s' in Hlen, Hrooms.
  assert (Hkeys : Map_keys (rooms s') = Map_keys (rooms s))
    by exact (emit_close_keys (listeners s) ws s0).
  split_and!.
  - intros r name room' Hin Hl'.
    destruct (rooms s !! r) as [[name0 room] |] eqn:Hl.
    + rewrite (Hrooms r name0 room Hl) in Hl'.
      rewrite decide_True in Hl' by done.
      injection Hl' as <- <-. apply Set_delete_gone.
    + apply lookup_ge_None in Hl. apply lookup_lt_Some in Hl'.
      simpl in Hlen. lia.
  - intros r name room Hl. eexists. split; [by apply Hrooms |].
    by case_decide.
  - intros ws' name.
    destruct (getRoom_post s' name) as (room' & Hfind' & _ & _ & _).
    destruct (getRoom_post s name) as (room & Hfind & _ & _ & _).
    rewrite (onWSConnection_unfold _ _ _ _ (Map_find_lookup _ _ _ _ Hfind')).
    rewrite (onWSConnection_unfold _ _ _ _ (Map_find_lookup _ _ _ _ Hfind)).
    simpl.
    destruct (Map_find (rooms s) name) as [[r room0] |] eqn:Hs.
    + rewrite (getRoom_found _ _ _ _ Hs) in Hfind. simpl in Hfind.
      destruct (Map_find_keys_prefix _ (rooms s') _ _ _ Hs) as [room1 Hs'].
      { by rewrite Hkeys. }
      rewrite (getRoom_found _ _ _ _ Hs') in Hfind'. simpl in Hfind'.
      rewrite Hs in Hfind. rewrite Hs' in Hfind'. simplify_eq.
      apply Map_find_lookup in Hs, Hs'.
      rewrite (Hrooms r name room Hs) in Hs'. injection Hs' as <-.
      by case_decide.
    + assert (Hs' : Map_find (rooms s') name = None).
      { apply Map_find_None. rewrite Hkeys. by apply Map_find_None. }
      rewrite (getRoom_absent _ _ Hs) in Hfind.
      rewrite (getRoom_absent _ _ Hs') in Hfind'. simpl in *.
      apply Map_find_lookup in Hfind, Hfind'.
      rewrite lookup_app_r, Nat.sub_diag in Hfind by done.
      rewrite lookup_app_r, Nat.sub_diag in Hfind' by done.
      simpl in *. simplify_eq. by rewrite Hlen.
Qed.
End RelayTheorems.

(** ** The upgrade listener and the directory *)

Section EndpointTheorems.
Context `{Y : Capability}.
Implicit Types (s : Server) (u : URL).

Lemma js_yjs : js "/yjs" = [47; 121; 106; 115]%N.
Proof. reflexivity. Qed.

Lemma startsWith_app p rest : startsWith (p ++ rest) p = true.
Proof.
  unfold startsWith. apply bool_decide_eq_true.
  by rewrite take_app_length.
Qed.

Lemma strip_yjs_app rest : strip_yjs (js "/yjs" ++ rest) = path_remainder rest.
Proof.
  unfold strip_yjs. rewrite startsWith_app.
  rewrite js_yjs. simpl. by destruct rest.
Qed.

Lemma on_upgrade_prefixed u rest :
  pathname u = js "/yjs" ++ rest →
  on_upgrade (Some u) =
    Handled (if decide (path_remainder rest = []) then room_param u
             else path_remainder rest).
Proof.
  intros Hpath. unfold on_upgrade.
  by rewrite Hpath, startsWith_app, strip_yjs_app.
Qed.


Lemma placeholder_test n :
  bool_decide (n = [])
  || bool_decide (toLowerCase n = js "user")
  || bool_decide (toLowerCase n = js "guest")
  = bool_decide (placeholder n).
Proof.
  unfold placeholder, same_ignoring_case.
  change (toLowerCase (js "user")) with (js "user").
  change (toLowerCase (js "guest")) with (js "guest").
  rewrite eq_iff_eq_true, !orb_true_iff, !bool_decide_eq_true. tauto.
Qed.

Lemma name_or_empty st :
  name_is_text st →
  js_or (js_get st (js "name")) (JsStr []) = JsStr (display_name st).
Proof.
  unfold name_is_text, display_name, js_or.
  destruct (js_get st (js "name")) as [| | b | q | n | items | props];
    intros Htext; rewrite ?Htext; try done.
  simpl. by case_bool_decide; simplify_eq.
Qed.

Lemma visit_state_text entry :
  name_is_text entry.2 →
  visit_state entry = Some (if decide (listed entry) then [triple entry] else []).
Proof.
  destruct entry as [cid st]. intros Htext.
  unfold visit_state. cbv beta iota.
  rewrite (name_or_empty st Htext), placeholder_test.
  unfold listed, triple. cbn [fst snd].
  case_bool_decide; [by rewrite decide_False by tauto |].
  by rewrite decide_True.
Qed.

Lemma room_peers_text aw :
  (∀ entry, entry ∈ getStates aw → name_is_text entry.2) →
  room_peers aw = Some (triple <$> filter listed (getStates aw)).
Proof.
  unfold room_peers. induction (getStates aw) as [| entry l IH]; intros Htext.
  - done.
  - simpl. rewrite visit_state_text by (apply Htext; left).
    simpl. apply fmap_Some in IH as (ks & Hks & Hjoin).
    2: { intros e He. apply Htext. by right. }
    rewrite Hks. simpl. f_equal. rewrite filter_cons.
    rewrite <- Hjoin. by case_decide.
Qed.

Lemma api_rooms_text s : names_are_text s → api_rooms s = Some (directory s).
Proof.
  unfold api_rooms, directory, names_are_text.
  induction (rooms s) as [| [name room] rs IH]; intros Htext.
  - done.
  - simpl. rewrite room_peers_text.
    2: { intros entry He. apply (Htext (name, room)); [left | done]. }
    simpl. rewrite IH; [done |].
    intros e entry He. apply Htext. by right.
Qed.

(** A name that is a number other than zero has no [trim]: the
    handler throws. *)
Lemma visit_state_number cid q props :
  Map_get props (js "name") = Some (JsNum q) → (Qnum q ≠ 0)%Z →
  visit_state (cid, JsObj props) = None.
Proof.
  intros Hname Hq. unfold visit_state, js_or, js_get. rewrite Hname. simpl.
  by destruct (Z.eqb_spec (Qnum q) 0).
Qed.

(** C7. With presence entries whose names are text, the directory
    query answers with one item for each room of the registry, in its
    order: the room name and, for each entry of the room's presence set
    that is not a placeholder, the triple of its client identifier, its
    trimmed display name and its color.  An entry whose trimmed display
    name is empty, or is ["user"] or ["guest"] in any case of letters,
    is in no answer, however many such entries there are. *)
Theorem directory_lists_named_peers s :
  names_are_text s →
  api_rooms s = Some (directory s)
  ∧ summary_name <$> directory s = fst <$> rooms s
  ∧ (∀ i name room, rooms s !! i = Some (name, room) →
       ∃ peers, directory s !! i = Some (mkSummary name peers)
         ∧ ∀ p, p ∈ peers ↔
             ∃ cid st, (cid, st) ∈ getStates (awareness room)
               ∧ ¬ placeholder (trim (display_name st))
               ∧ p = mkPeer cid (trim (display_name st))
                       (js_or (js_get st (js "color")) (JsStr (js "#999"))))
  ∧ (∀ item p, item ∈ directory s → p ∈ summary_peers item →
       ¬ placeholder (peer_name p)).
Proof.
  intros Htext. split_and!.
  - by apply api_rooms_text.
  - unfold directory. rewrite <- list_fmap_compose. by apply list_fmap_ext.
  - intros i name room Hl. eexists. split.
    + unfold directory. by rewrite list_lookup_fmap, Hl.
    + intros p. simpl. rewrite list_elem_of_fmap. split.
      * intros ([cid st] & -> & [Hlisted Hin]%list_elem_of_filter).
        by exists cid, st.
      * intros (cid & st & Hin & Hlisted & ->). exists (cid, st).
        split; [done |]. by apply list_elem_of_filter.
  - intros item p (e & -> & _)%list_elem_of_fmap. simpl.
    intros (entry & -> & [Hlisted _]%list_elem_of_filter)%list_elem_of_fmap.
    done.
Qed.
End EndpointTheorems.

(** ** The session, run *)

Section Session.
Import Demo.

(** C1 as it was stated fails when a socket of the room is closing.
    Sockets 1, 2 and 3 are in the connection set of the room and socket
    2 is closing; the delta that socket 1 sends is applied and announces
    client 7 as added, and it is sent to socket 3 alone: socket 2, which
    is in the set and is not the sender, is sent nothing. *)
Lemma presence_delta_skips_closing_socket :
  let s := after [join 1; join 2; join 3; Closing 2] in
  connection_sets s = [[1; 2; 3]]
  ∧ readyState s 2 = CLOSING
  ∧ (snd <$> Mini.applyAwarenessUpdate
               (Mini.new_Awareness (Mini.new_Doc 0)) alice_update)
    = Some (Some (mkChanges [7%N] [] []))
  ∧ (snd <$> step s (Message 1 alice))
    = Some [Send 3 (awareness_message with_alice [7%N])]
  ∧ ∀ out, snd <$> step s (Message 1 alice) = Some out →
           ∀ b, Send 2 b ∉ out.
Proof.
  split_and!; [by vm_compute.. |].
  intros out Hout. vm_compute in Hout. injection Hout as <-.
  intros b Hin. apply list_elem_of_singleton in Hin. discriminate.
Qed.

(** C2 as it was stated fails.  Client 7 announced itself through
    socket 1; when socket 1 closes, socket 2, which remains, is sent
    nothing, client 7 stays in the presence set, and the snapshot that
    greets socket 3 afterwards encodes client 7. *)
Lemma close_keeps_presence_entry :
  let s := after [join 1; join 2; Message 1 alice] in
  let s' := after [join 1; join 2; Message 1 alice; Close 1] in
  connection_sets s = [[1; 2]]
  ∧ presence_ids s = [[9000; 7]%N]
  ∧ (snd <$> step s (Close 1)) = Some []
  ∧ connection_sets s' = [[2]]
  ∧ presence_ids s' = [[9000; 7]%N]
  ∧ (snd <$> step s' (join 3))
    = Some [Send 3 [0; 0; 0]%N;
            Send 3 (awareness_message with_alice [9000; 7]%N)].
Proof. split_and!; by vm_compute. Qed.

(** C7 as it was stated fails when a presence entry holds a name that
    is not text.  The registry has the room ["lobby"], whose presence set
    names Alice and Bob among placeholders, and the room ["attic"], where
    client 3 is in the presence set with the number 5 as its name.  For
    the lobby alone the directory lists Alice and Bob; with the attic in
    the registry the handler throws at that entry and there is no answer:
    no room is returned, the lobby with its two named peers included. *)
Lemma directory_fails_on_numeric_name :
  (fst <$> rooms Tour.two_rooms) = [js "lobby"; js "attic"]
  ∧ rooms Tour.two_rooms !! 0 = head (rooms lobby)
  ∧ api_rooms lobby
    = Some [mkSummary (js "lobby")
              [mkPeer 1 (js "Alice") (JsStr (js "#999"));
               mkPeer 6 (js "Bob") (JsStr (js "#00f"))]]
  ∧ (snd <$> rooms Tour.two_rooms !! 1) = Some Tour.odd_room
  ∧ getStates (awareness Tour.odd_room)
    = [(9000%N, JsObj []); (3%N, JsObj [(js "name", JsNum 5)])]
  ∧ api_rooms Tour.two_rooms = None.
Proof. split_and!; by vm_compute. Qed.

Lemma presence_delta_not_echoed_witness :
  readVarUint alice = Some (MSG_AWARENESS, tail alice)
  ∧ readVarUint8Array (tail alice) = Some (alice_update, [])
  ∧ applyAwarenessUpdate (awareness trio) alice_update
    = Some (with_alice, Some (mkChanges [7%N] [] []))
  ∧ ∃ out, onMessage closing_2 trio 1 alice
           = Some (set_awareness with_alice trio, out)
      ∧ Send 3 (awareness_message with_alice [7%N]) ∈ out
      ∧ ∀ b, Send 1 b ∉ out.
Proof.
  split_and!; [by vm_compute.. |].
  destruct (presence_delta_not_echoed closing_2 trio 1 alice (tail alice)
              alice_update [] with_alice (mkChanges [7%N] [] []))
    as (out & Hrun & Hall & _ & Hnone); [by vm_compute.. |].
  exists out. split_and!; [done | | done].
  apply (Hall 3); [simpl; repeat constructor | done | done].
Defined.

Lemma close_drops_handle_keeps_presence_witness :
  ∃ s', step (after [join 1; join 2; Message 1 alice]) (Close 1) = Some (s', [])
    ∧ ∀ name room', rooms s' !! 0 = Some (name, room') → 1 ∉ conns room'.
Proof.
  destruct (close_drops_handle_keeps_presence
              (after [join 1; join 2; Message 1 alice]) 1)
    as (s' & Hstep & Hgone & _).
  exists s'. split; [done |]. intros name room'.
  apply Hgone. vm_compute. repeat constructor.
Defined.

Lemma getRoom_one_room_per_name_witness :
  let s1 := (getRoom start (js "studio-123")).2 in
  let es := [join 1; Message 1 alice; join 2; Close 1] in
  run s1 es = Some (default start (fst <$> run s1 es),
                    default [] (snd <$> run s1 es))
  ∧ getRoom (default start (fst <$> run s1 es)) (js "studio-123")
    = (0, default start (fst <$> run s1 es)).
Proof.
  intros s1 es.
  assert (Hrun : run s1 es = Some (default start (fst <$> run s1 es),
                                   default [] (snd <$> run s1 es)))
    by (by vm_compute).
  split; [exact Hrun |].
  by destruct (getRoom_one_room_per_name start (js "studio-123") es _ _ Hrun)
    as (_ & _ & _ & Hlater & _).
Defined.


Lemma sync_reply_goes_to_sender_only_witness :
  readVarUint sync_request = Some (MSG_SYNC, [0; 0]%N)
  ∧ readSyncMessage [0; 0]%N (doc trio) = Some ([1; 0]%N, doc trio)
  ∧ ∃ acts, onMessage closing_2 trio 1 sync_request = Some (trio, acts)
      ∧ acts = [Send 1 [0; 1; 0]%N].
Proof.
  split_and!; [by vm_compute.. |].
  destruct (sync_reply_goes_to_sender_only closing_2 trio 1 sync_request
              [0; 0]%N [1; 0]%N (doc trio))
    as (acts & Hrun & Hsome & _); [by vm_compute.. |].
  exists acts. split; [exact Hrun |]. by apply Hsome.
Defined.


Lemma lobby_names_are_text : names_are_text lobby.
Proof.
  intros e entry He Hentry. apply list_elem_of_singleton in He as ->.
  simpl in Hentry.
  repeat (apply elem_of_cons in Hentry as [-> | Hentry]; [by vm_compute |]).
  by apply elem_of_nil in Hentry.
Defined.

Lemma directory_lists_named_peers_witness :
  names_are_text lobby
  ∧ api_rooms lobby
    = Some [mkSummary (js "lobby")
              [mkPeer 1 (js "Alice") (JsStr (js "#999"));
               mkPeer 6 (js "Bob") (JsStr (js "#00f"))]].
Proof.
  split; [exact lobby_names_are_text |].
  destruct (directory_lists_named_peers lobby lobby_names_are_text)
    as (Hanswer & _).
  rewrite Hanswer. by vm_compute.
Defined.

Lemma unknown_tag_is_ignored_witness :
  readVarUint stray = Some (5%N, [1; 2; 3]%N)
  ∧ step (after [join 1; join 2]) (Message 1 stray)
    = Some (after [join 1; join 2], []).
Proof.
  split; [by vm_compute |].
  by destruct (unknown_tag_is_ignored (after [join 1; join 2]) 1 stray
                 5%N [1; 2; 3]%N) as (Hstep & _); [by vm_compute.. |].
Defined.

Lemma close_changes_connection_sets_only_witness :
  ∃ s', step (after [join 1; join 2; Message 1 alice]) (Close 1) = Some (s', [])
    ∧ length (rooms s') = 1.
Proof.
  destruct (close_changes_connection_sets_only
              (after [join 1; join 2; Message 1 alice]) 1)
    as (_ & s' & Hstep & Hlen & _).
  exists s'. split; [done |]. by rewrite Hlen.
Defined.

Lemma fanout_reaches_only_open_sockets_witness :
  awareness_on_update closing_2 with_alice [1; 2; 3] (mkChanges [7%N] [] [])
    (OriginConn 1)
  = awareness_on_update closing_2 with_alice [1; 3] (mkChanges [7%N] [] [])
      (OriginConn 1).
Proof.
  by destruct (fanout_reaches_only_open_sockets (Y := mini) closing_2
                 with_alice [1; 2; 3] (mkChanges [7%N] [] []) (OriginConn 1))
    as (_ & _ & _ & Hsame).
Defined.
End Session.

(** * Further properties of the relay *)

Section Invariants.
Context `{Y : Capability}.
Implicit Types (s : Server) (ws c : Conn) (r : nat) (name : jsstring).

Lemma shape_lookup s r name cs :
  shape s !! r = Some (name, cs) ↔
    ∃ room, rooms s !! r = Some (name, room) ∧ conns room = cs.
Proof.
  unfold shape. rewrite list_lookup_fmap, fmap_Some. split.
  - intros ([n room] & Hl & [= -> ->]). by exists room.
  - intros (room & Hl & <-). by exists (name, room).
Qed.

Lemma shape_length s : length (shape s) = length (rooms s).
Proof. unfold shape. by rewrite length_fmap. Qed.

Lemma shape_keys s : fst <$> shape s = Map_keys (rooms s).
Proof. unfold shape, Map_keys. rewrite <- list_fmap_compose. done. Qed.

Lemma shape_insert s r name room room' :
  rooms s !! r = Some (name, room) →
  shape (set_rooms (<[r := (name, room')]> (rooms s)) s)
  = <[r := (name, conns room')]> (shape s).
Proof. intros _. unfold shape. simpl. by rewrite list_fmap_insert. Qed.

(** The message listener leaves the connection set alone, destroys no
    socket, and sends to its own socket or to sockets of its room. *)
Lemma onMessage_conns ready room ws data room' out :
  onMessage ready room ws data = Some (room', out) →
  conns room' = conns room
  ∧ ∀ a, a ∈ out → ∃ c b, a = Send c b ∧ (c = ws ∨ c ∈ conns room).
Proof.
  unfold onMessage.
  destruct (readVarUint data) as [[type dec] |]; simpl; [| done].
  case_decide as Hs; [| case_decide as Ha].
  - destruct (readSyncMessage dec (doc room)) as [[o doc'] |]; simpl; [| done].
    intros [= <- <-]. split; [done |]. intros a Hin.
    case_decide; [| by apply elem_of_nil in Hin].
    apply list_elem_of_singleton in Hin as ->. eexists _, _. by split; [| left].
  - destruct (readVarUint8Array dec) as [[update rest] |]; simpl; [| done].
    destruct (applyAwarenessUpdate (awareness room) update)
      as [[aw' [ch |]] |]; simpl; [| | done].
    + intros [= <- <-]. split; [done |].
      intros a (c & -> & Hc & _)%fanout_elem. eexists _, _. by split; [| right].
    + intros [= <- <-]. split; [done |]. by intros a Hin%elem_of_nil.
  - intros [= <- <-]. split; [done |]. by intros a Hin%elem_of_nil.
Qed.

Lemma in_room_shape s r f s' out :
  in_room s r f = Some (s', out) →
  (∀ room room' o, f room = Some (room', o) → conns room' = conns room) →
  shape s' = shape s.
Proof.
  unfold in_room. destruct (rooms s !! r) as [[name room] |] eqn:Hl.
  - destruct (f room) as [[room' o] |] eqn:Hf; simpl; [| done].
    intros [= <- <-] Hconns. rewrite (shape_insert _ _ _ _ _ Hl).
    rewrite (Hconns _ _ _ Hf). apply list_insert_id.
    apply shape_lookup. by exists room.
  - by intros [= <- <-].
Qed.

Lemma in_room_other s r f s' out r' :
  in_room s r f = Some (s', out) → r' ≠ r → rooms s' !! r' = rooms s !! r'.
Proof.
  unfold in_room. destruct (rooms s !! r) as [[name room] |] eqn:Hl.
  - destruct (f room) as [[room' o] |]; simpl; [| done].
    intros [= <- <-] Hne. simpl. by rewrite list_lookup_insert_ne.
  - by intros [= <- <-].
Qed.

Lemma in_room_out s r f s' out :
  in_room s r f = Some (s', out) →
  out = [] ∨ ∃ name room room', rooms s !! r = Some (name, room)
                                ∧ f room = Some (room', out).
Proof.
  unfold in_room. destruct (rooms s !! r) as [[name room] |] eqn:Hl.
  - destruct (f room) as [[room' o] |] eqn:Hf; simpl; [| done].
    intros [= <- <-]. right. by exists name, room, room'.
  - intros [= <- <-]. by left.
Qed.

(** What [ws.emit("message", data)] can touch and reach. *)
Lemma emit_message_frame ls : ∀ s ws data s' out,
  emit_message ls s ws data = Some (s', out) →
  shape s' = shape s
  ∧ (∀ r, (ws, r) ∉ ls → rooms s' !! r = rooms s !! r)
  ∧ ∀ a, a ∈ out →
      ∃ c b, a = Send c b
        ∧ (c = ws ∨ ∃ r name cs, (ws, r) ∈ ls
                     ∧ shape s !! r = Some (name, cs) ∧ c ∈ cs).
Proof.
  induction ls as [| [c0 r0] ls IH]; intros s ws data s' out; simpl.
  - intros [= <- <-]. split_and!; [done | done |]. by intros a Hin%elem_of_nil.
  - case_decide as Hc.
    + subst c0.
      destruct (in_room s r0 _) as [[s1 out1] |] eqn:H1; simpl; [| done].
      destruct (emit_message ls s1 ws data) as [[s2 out2] |] eqn:H2;
        simpl; [| done].
      intros [= <- <-].
      assert (Hsh1 : shape s1 = shape s).
      { eapply in_room_shape; [done |]. intros room room' o Hm.
        by apply onMessage_conns in Hm as [? _]. }
      destruct (IH _ _ _ _ _ H2) as (Hsh2 & Hother & Hout).
      split_and!.
      * congruence.
      * intros r Hr. rewrite Hother by (intros ?; apply Hr; by right).
        eapply in_room_other; [done |]. intros ->. apply Hr. by left.
      * intros a [Hin | Hin]%elem_of_app.
        -- destruct (in_room_out _ _ _ _ _ H1) as [-> | (n & room & room' & Hl & Hm)];
             [by apply elem_of_nil in Hin |].
           apply onMessage_conns in Hm as [_ Hm].
           destruct (Hm a Hin) as (c & b & -> & [-> | Hmem]);
             eexists _, _; (split; [done |]); [by left | right].
           exists r0, n, (conns room). split_and!; [by left | | done].
           apply shape_lookup. by exists room.
        -- destruct (Hout a Hin)
             as (c & b & -> & [-> | (r & n & cs & Hr & Hl & Hmem)]);
             eexists _, _; (split; [done |]); [by left | right].
           exists r, n, cs. split_and!; [by right | congruence | done].
    + intros Hrun. destruct (IH _ _ _ _ _ Hrun) as (Hsh & Hother & Hout).
      split_and!; [done | |].
      * intros r Hr. apply Hother. intros ?. apply Hr. by right.
      * intros a Hin.
        destruct (Hout a Hin)
          as (c & b & -> & [-> | (r & n & cs & Hr & Hl & Hmem)]);
          eexists _, _; (split; [done |]); [by left | right].
        exists r, n, cs. split_and!; [by right | done | done].
Qed.

Lemma Set_add_NoDup (x : Conn) cs : NoDup cs → NoDup (Set_add x cs).
Proof.
  intros Hnd. unfold Set_add. case_decide as Hin; [done |].
  apply NoDup_app. split_and!; [done | | apply NoDup_singleton].
  intros y Hy ->%list_elem_of_singleton. done.
Qed.

Lemma Set_add_inv (x y : Conn) cs : y ∈ Set_add x cs → y = x ∨ y ∈ cs.
Proof.
  unfold Set_add. case_decide; [by right |].
  intros [? | ->%list_elem_of_singleton]%elem_of_app; [by right | by left].
Qed.

Lemma tidy_start : tidy [] [].
Proof.
  split_and!; [constructor | constructor | done |].
  by intros c r Hin%elem_of_nil.
Qed.

Lemma tidy_append sh ls name :
  tidy sh ls → name ∉ fst <$> sh → name ≠ [] → tidy (sh ++ [(name, [])]) ls.
Proof.
  intros (Hnames & Hfull & Hconns & Hls) Hnew Hname. split_and!.
  - rewrite fmap_app. apply NoDup_app. split_and!; [done | | apply NoDup_singleton].
    by intros k Hk ->%list_elem_of_singleton.
  - apply Forall_app. split; [done |]. by constructor.
  - intros r n cs Hl. apply lookup_app_Some in Hl as [Hl | [Hge Hl]].
    + by apply Hconns in Hl.
    + apply list_lookup_singleton_Some in Hl as [_ [= <- <-]].
      split; [constructor |]. by intros c Hin%elem_of_nil.
  - intros c r Hin. rewrite length_app. apply Hls in Hin. lia.
Qed.

Lemma tidy_join sh ls r name cs ws :
  tidy sh ls → sh !! r = Some (name, cs) →
  tidy (<[r := (name, Set_add ws cs)]> sh) (ls ++ [(ws, r)]).
Proof.
  intros (Hnames & Hfull & Hconns & Hls) Hl.
  assert (Hr : (r < length sh)%nat) by (by eapply lookup_lt_Some).
  split_and!.
  - rewrite list_fmap_insert. simpl.
    rewrite list_insert_id; [done |]. by rewrite list_lookup_fmap, Hl.
  - apply Forall_insert; [done |]. simpl.
    rewrite Forall_forall in Hfull.
    apply (Hfull (name, cs)). by eapply list_elem_of_lookup_2.
  - intros r' n cs' Hl'.
    apply list_lookup_insert_Some in Hl' as [(<- & [= <- <-] & _) | (Hne & Hl')].
    + destruct (Hconns _ _ _ Hl) as [Hnd Hin]. split; [by apply Set_add_NoDup |].
      intros c [-> | Hc]%Set_add_inv; apply elem_of_app;
        [right; by left | left; by apply Hin].
    + destruct (Hconns _ _ _ Hl') as [Hnd Hin]. split; [done |].
      intros c Hc. apply elem_of_app. left. by apply Hin.
  - intros c r' [Hin | [= -> ->]%list_elem_of_singleton]%elem_of_app;
      rewrite length_insert; [by eapply Hls | done].
Qed.

Lemma tidy_shrink sh sh' ls :
  tidy sh ls → length sh' = length sh →
  (∀ r name cs, sh !! r = Some (name, cs) →
     ∃ cs', sh' !! r = Some (name, cs')
       ∧ (NoDup cs → NoDup cs') ∧ ∀ c, c ∈ cs' → c ∈ cs) →
  tidy sh' ls.
Proof.
  intros (Hnames & Hfull & Hconns & Hls) Hlen Hsame.
  assert (Hback : ∀ r name cs', sh' !! r = Some (name, cs') →
            ∃ cs, sh !! r = Some (name, cs)
              ∧ (NoDup cs → NoDup cs') ∧ ∀ c, c ∈ cs' → c ∈ cs).
  { intros r name cs' Hl'.
    destruct (sh !! r) as [[n cs] |] eqn:Hl.
    - destruct (Hsame _ _ _ Hl) as (cs0 & Hl0 & Hnd & Hsub).
      rewrite Hl' in Hl0. injection Hl0 as <- <-. by exists cs.
    - apply lookup_ge_None in Hl. apply lookup_lt_Some in Hl'. lia. }
  assert (Hkeys : fst <$> sh' = fst <$> sh).
  { apply list_eq. intros r. rewrite !list_lookup_fmap.
    destruct (sh !! r) as [[n cs] |] eqn:Hl.
    - by destruct (Hsame _ _ _ Hl) as (cs0 & -> & _).
    - apply lookup_ge_None in Hl. rewrite <- Hlen in Hl.
      apply lookup_ge_None in Hl. by rewrite Hl. }
  split_and!.
  - by rewrite Hkeys.
  - apply Forall_forall. intros [n cs'] [r Hl']%list_elem_of_lookup. simpl.
    destruct (Hback _ _ _ Hl') as (cs & Hl & _).
    rewrite Forall_forall in Hfull. apply (Hfull (n, cs)).
    by eapply list_elem_of_lookup_2.
  - intros r n cs' Hl'. destruct (Hback _ _ _ Hl') as (cs & Hl & Hnd & Hsub).
    destruct (Hconns _ _ _ Hl) as [Hnd0 Hin]. split; [by apply Hnd |].
    intros c Hc. by apply Hin, Hsub.
  - intros c r Hin. rewrite Hlen. by eapply Hls.
Qed.

(** The room name an accepted upgrade passes on is not empty. *)
Lemma on_upgrade_named request room :
  on_upgrade request = Handled room → room ≠ [].
Proof.
  unfold on_upgrade. destruct request as [u |]; [| done].
  destruct (negb _); [done |]. intros [= <-].
  case_decide as Hroom; [| done].
  unfold room_param. destruct (Map_get _ _) as [v |]; [| done].
  by case_decide.
Qed.

Lemma onWSConnection_shape s ws name :
  well_formed s → name ≠ [] →
  well_formed (onWSConnection s ws name).1.
Proof.
  intros Hwf Hname. unfold well_formed in *.
  destruct (getRoom_post s name) as (room & Hfind & _ & _ & _).
  pose proof (Map_find_lookup _ _ _ _ Hfind) as Hl.
  rewrite (onWSConnection_unfold _ _ _ _ Hl). simpl.
  unfold shape at 1. simpl. rewrite list_fmap_insert. simpl.
  fold (shape (getRoom s name).2).
  apply tidy_join; [| apply shape_lookup; by exists room].
  destruct (Map_find (rooms s) name) as [[r room0] |] eqn:Hs.
  - by rewrite (getRoom_found _ _ _ _ Hs).
  - rewrite (getRoom_absent _ _ Hs). unfold shape at 1. simpl.
    rewrite fmap_app. simpl. fold (shape s).
    apply tidy_append; [done | | done].
    rewrite shape_keys. by apply Map_find_None.
Qed.

Lemma emit_close_shape ls ws s :
  well_formed s → listeners s = ls → well_formed (emit_close ls s ws).
Proof.
  intros Hwf <-. unfold well_formed in *.
  destruct (emit_close_rooms (listeners s) ws s) as (-> & _ & Hlen & Hrooms).
  eapply tidy_shrink; [done | by rewrite !shape_length |].
  intros r name cs (room & Hl & <-)%shape_lookup.
  eexists. split; [apply shape_lookup; eexists; split; [by apply Hrooms | done] |].
  case_decide; simpl; [| done].
  split; [apply NoDup_filter |]. by intros c [? _]%Set_delete_elem.
Qed.

(** Every event keeps the registry tidy. *)
Lemma step_well_formed s e s' out :
  step s e = Some (s', out) → well_formed s → well_formed s'.
Proof.
  destruct e as [request handshake | ws data | ws | ws | r aw' ch label];
    cbn [step].
  - destruct (on_upgrade request) as [| name] eqn:Hup; [by intros [= <- <-] |].
    destruct handshake as [ws |]; [| by intros [= <- <-]].
    intros [= Heq] Hwf. apply (f_equal fst) in Heq. simpl in Heq. subst s'.
    apply onWSConnection_shape; [done | by eapply on_upgrade_named].
  - intros Hrun Hwf. unfold well_formed.
    destruct (emit_message_frame _ _ _ _ _ _ Hrun) as (-> & _).
    by destruct (emit_message_keys _ _ _ _ _ _ Hrun) as (_ & -> & _).
  - by intros [= <- <-].
  - intros [= <- <-] Hwf. by apply (emit_close_shape _ _ (set_readyState ws CLOSED s)).
  - intros Hrun Hwf. unfold well_formed.
    rewrite (in_room_shape _ _ _ _ _ Hrun) by (by intros ? ? ? [= <- <-]).
    by destruct (in_room_keys _ _ _ _ _ Hrun) as (_ & -> & _).
Qed.

Lemma run_well_formed es : ∀ s s' out,
  run s es = Some (s', out) → well_formed s → well_formed s'.
Proof.
  induction es as [| e es IH]; intros s s' out; simpl.
  - by intros [= <- <-].
  - destruct (step s e) as [[s1 out1] |] eqn:H1; simpl; [| done].
    destruct (run s1 es) as [[s2 out2] |] eqn:H2; simpl; [| done].
    intros [= <- <-] Hwf. eapply IH; [done |]. by eapply step_well_formed.
Qed.

Lemma reachable_well_formed s : reachable s → well_formed s.
Proof.
  intros (es & out & Hrun). eapply run_well_formed; [done |]. apply tidy_start.
Qed.
End Invariants.

Section RelayFrames.
Context `{Y : Capability}.
Implicit Types (s : Server) (ws c : Conn) (r : nat) (name : jsstring).

(** X1. The registry never evicts: through any run of events a room
    stays where it is under its name, and the names before are the first
    of the names after. *)
Theorem registry_never_evicts s es s' out :
  run s es = Some (s', out) →
  Map_keys (rooms s) `prefix_of` Map_keys (rooms s')
  ∧ (length (rooms s) ≤ length (rooms s'))%nat
  ∧ ∀ name r room, Map_find (rooms s) name = Some (r, room) →
      ∃ room', Map_find (rooms s') name = Some (r, room').
Proof.
  intros Hrun. pose proof (run_keys _ _ _ _ Hrun) as Hpre. split_and!.
  - done.
  - apply prefix_length in Hpre. unfold Map_keys in Hpre.
    by rewrite !length_fmap in Hpre.
  - intros name r room Hfind. by eapply Map_find_keys_prefix.
Qed.

(** X2. In every state reached from the start no two rooms of the
    registry have the same name, no name is empty, no connection set
    holds a socket twice, and a socket is in the connection set of a room
    only if [onWSConnection] put listeners for that room on it. *)
Theorem reachable_registry_tidy s :
  reachable s →
  NoDup (Map_keys (rooms s))
  ∧ (∀ name room, (name, room) ∈ rooms s → name ≠ [])
  ∧ ∀ r name room, rooms s !! r = Some (name, room) →
      NoDup (conns room)
      ∧ ∀ c, c ∈ conns room → (c, r) ∈ listeners s.
Proof.
  intros (Hnames & Hfull & Hconns & _)%reachable_well_formed. split_and!.
  - by rewrite <- shape_keys.
  - intros name room [r Hl]%list_elem_of_lookup.
    rewrite Forall_forall in Hfull. apply (Hfull (name, conns room)).
    apply list_elem_of_lookup. exists r. apply shape_lookup. by exists room.
  - intros r name room Hl. apply (Hconns r name).
    apply shape_lookup. by exists room.
Qed.

(** X3. The upgrade listener refuses exactly the targets that do not
    parse or whose path lacks the prefix, and the room name it passes on
    is never empty. *)
Theorem upgrade_refuses_or_names_room request :
  (on_upgrade request = Refused ↔
     request = None
     ∨ ∃ u, request = Some u ∧ startsWith (pathname u) (js "/yjs") = false)
  ∧ ∀ room, on_upgrade request = Handled room → room ≠ [].
Proof.
  split; [| intros room; apply on_upgrade_named].
  unfold on_upgrade. destruct request as [u |].
  - destruct (startsWith (pathname u) (js "/yjs")) eqn:Hpre; simpl.
    + split; [done |]. intros [? | (u' & [= <-] & Hno)]; [done | congruence].
    + split; [| done]. intros _. right. by exists u.
  - split; [by left | done].
Qed.

(** X4. A message from a socket changes no connection set, and leaves
    every room untouched that no listener of the socket closed over.
    Whatever it causes to be sent goes to the socket itself or to a socket
    in the connection set of such a room; no socket is destroyed. *)
Theorem message_stays_in_its_rooms s ws data s' out :
  step s (Message ws data) = Some (s', out) →
  shape s' = shape s
  ∧ listeners s' = listeners s
  ∧ readyState s' = readyState s
  ∧ (∀ r, (ws, r) ∉ listeners s → rooms s' !! r = rooms s !! r)
  ∧ ∀ a, a ∈ out →
      ∃ c b, a = Send c b
        ∧ (c = ws ∨ ∃ r name room, (ws, r) ∈ listeners s
                     ∧ rooms s !! r = Some (name, room) ∧ c ∈ conns room).
Proof.
  cbn [step]. intros Hrun.
  destruct (emit_message_frame _ _ _ _ _ _ Hrun) as (Hsh & Hother & Hout).
  destruct (emit_message_keys _ _ _ _ _ _ Hrun) as (_ & Hls & Hrs).
  split_and!; [done.. |]. intros a Hin.
  destruct (Hout a Hin) as (c & b & -> & [-> | (r & n & cs & Hr & Hl & Hc)]);
    eexists _, _; (split; [done |]); [by left | right].
  apply shape_lookup in Hl as (room & Hl & <-). by exists r, n, room.
Qed.

(** X5. In a state reached from the start, once the close listener of
    a socket has run the socket is in no connection set, and a message
    from any other socket causes nothing to be sent to it. *)
Theorem closed_socket_is_forgotten s ws :
  reachable s →
  ∃ s', step s (Close ws) = Some (s', [])
    ∧ (∀ name room, (name, room) ∈ rooms s' → ws ∉ conns room)
    ∧ ∀ ws2 data s'' out, ws2 ≠ ws →
        step s' (Message ws2 data) = Some (s'', out) →
        ∀ b, Send ws b ∉ out.
Proof.
  intros (_ & _ & Hconns & _)%reachable_well_formed.
  eexists. split; [apply step_close |].
  set (s0 := set_readyState ws CLOSED s).
  set (s' := emit_close (listeners s) s0 ws).
  destruct (emit_close_rooms (listeners s) ws s0) as (_ & _ & Hlen & Hrooms).
  fold s' in Hlen, Hrooms.
  assert (Hgone : ∀ name room, (name, room) ∈ rooms s' → ws ∉ conns room).
  { intros name room' [r Hl']%list_elem_of_lookup.
    destruct (rooms s !! r) as [[n room] |] eqn:Hl.
    - rewrite (Hrooms r n room Hl) in Hl'. injection Hl' as <- <-.
      case_decide as Hin; [apply Set_delete_gone |].
      intros Hc. apply Hin. apply (Hconns r n (conns room)); [| done].
      apply shape_lookup. by exists room.
    - apply lookup_ge_None in Hl. apply lookup_lt_Some in Hl'.
      simpl in Hlen. lia. }
  split; [done |]. intros ws2 data s'' out Hne Hstep b Hin.
  apply message_stays_in_its_rooms in Hstep as (_ & _ & _ & _ & Hout).
  destruct (Hout _ Hin) as (c & b' & [= <- <-] & [-> | (r & n & room & _ & Hl & Hc)]);
    [done |].
  apply (Hgone n room); [by eapply list_elem_of_lookup_2 | done].
Qed.

(** X6. In a state reached from the start a fan-out sends its delta to
    no socket twice. *)
Theorem fanout_sends_once s r name room ready aw ch origin :
  reachable s → rooms s !! r = Some (name, room) →
  NoDup (awareness_on_update ready aw (conns room) ch origin).
Proof.
  intros (_ & _ & Hconns & _)%reachable_well_formed Hl.
  unfold awareness_on_update, recipients.
  apply NoDup_fmap_2; [by intros c1 c2 [= ->] |].
  apply NoDup_filter. apply (Hconns r name). apply shape_lookup. by exists room.
Qed.
(** A message that cannot be decoded: no kind tag, or an awareness
    message without a readable payload. *)
Lemma onMessage_undecodable ready room ws data :
  readVarUint data = None
  ∨ (∃ dec, readVarUint data = Some (MSG_AWARENESS, dec)
            ∧ readVarUint8Array dec = None) →
  onMessage ready room ws data = None.
Proof.
  intros [Hnone | (dec & Htag & Hnone)].
  - unfold onMessage. by rewrite Hnone.
  - rewrite (onMessage_awareness _ _ _ _ _ Htag). by rewrite Hnone.
Qed.

Lemma emit_message_undecodable ls : ∀ s ws data r name room,
  readVarUint data = None
  ∨ (∃ dec, readVarUint data = Some (MSG_AWARENESS, dec)
            ∧ readVarUint8Array dec = None) →
  (ws, r) ∈ ls → rooms s !! r = Some (name, room) →
  emit_message ls s ws data = None.
Proof.
  induction ls as [| [c0 r0] ls IH]; intros s ws data r name room Hbad Hin Hl.
  - by apply elem_of_nil in Hin.
  - simpl. case_decide as Hc.
    + subst c0. unfold in_room at 1.
      destruct (rooms s !! r0) as [[n0 room0] |] eqn:Hl0.
      * by rewrite (onMessage_undecodable _ _ _ _ Hbad).
      * simpl. apply elem_of_cons in Hin as [[= <-] | Hin]; [congruence |].
        by rewrite (IH _ _ _ _ _ _ Hbad Hin Hl).
    + apply elem_of_cons in Hin as [[= <- <-] | Hin]; [done |].
      by eapply IH.
Qed.

(** X7. The message listener catches nothing: for a socket bound to a
    room, a message whose kind tag cannot be read, or an awareness message
    whose payload cannot be read, makes the listener throw. *)
Theorem undecodable_message_throws s ws r name room data :
  (ws, r) ∈ listeners s → rooms s !! r = Some (name, room) →
  readVarUint data = None
  ∨ (∃ dec, readVarUint data = Some (MSG_AWARENESS, dec)
            ∧ readVarUint8Array dec = None) →
  step s (Message ws data) = None
  ∧ ∀ ready room0, onMessage ready room0 ws data = None.
Proof.
  intros Hin Hl Hbad. split.
  - cbn [step]. by eapply emit_message_undecodable.
  - intros ready room0. by apply onMessage_undecodable.
Qed.

Lemma visit_state_Some entry ps :
  visit_state entry = Some ps → name_is_text entry.2.
Proof.
  destruct entry as [cid st]. unfold visit_state, name_is_text, js_or. simpl.
  destruct (js_get st (js "name")) as [| | b | q | n | items | props];
    simpl; try done.
  - by destruct b.
  - by destruct (Qnum q =? 0)%Z.
Qed.

Lemma visit_state_None entry :
  visit_state entry = None ↔ ¬ name_is_text entry.2.
Proof.
  split.
  - intros Hnone Htext. by rewrite (visit_state_text _ Htext) in Hnone.
  - destruct (visit_state entry) as [ps |] eqn:Hv; [| done].
    intros Hno. destruct Hno. by eapply visit_state_Some.
Qed.

Lemma room_peers_None aw :
  room_peers aw = None ↔
    ∃ entry, entry ∈ getStates aw ∧ ¬ name_is_text entry.2.
Proof.
  unfold room_peers. rewrite fmap_None, mapM_None, Exists_exists.
  by setoid_rewrite visit_state_None.
Qed.

(** X8. The directory query throws exactly when some room holds a
    presence entry whose name is neither a string nor falsy. *)
Theorem directory_throws_on_untyped_name s :
  api_rooms s = None ↔
    ∃ e entry, e ∈ rooms s ∧ entry ∈ getStates (awareness e.2)
               ∧ ¬ name_is_text entry.2.
Proof.
  unfold api_rooms. rewrite mapM_None, Exists_exists. split.
  - intros ([name room] & He & Hnone). exists (name, room).
    apply fmap_None, room_peers_None in Hnone as (entry & Hin & Hno).
    by exists entry.
  - intros ([name room] & entry & He & Hin & Hno). exists (name, room).
    split; [done |]. apply fmap_None, room_peers_None. by exists entry.
Qed.
End RelayFrames.

(** ** [trim] *)

Section TrimFacts.
Implicit Types (s t : jsstring) (c : N).

Lemma trimStart_clean s : starts_clean (trimStart s).
Proof.
  induction s as [| c s IH]; simpl; [done |].
  by destruct (is_space c) eqn:Hc.
Qed.

Lemma trimStart_id s : starts_clean s → trimStart s = s.
Proof. destruct s as [| c s]; simpl; [done |]. by intros ->. Qed.

Lemma trimStart_snoc s c :
  is_space c = false → trimStart (s ++ [c]) = trimStart s ++ [c].
Proof.
  intros Hc. induction s as [| x s IH]; simpl.
  - by rewrite Hc.
  - by destruct (is_space x).
Qed.

Lemma trimEnd_cons c s : is_space c = false → trimEnd (c :: s) = c :: trimEnd s.
Proof.
  intros Hc. unfold trimEnd.
  by rewrite reverse_cons, (trimStart_snoc _ _ Hc), reverse_snoc.
Qed.

Lemma trimEnd_clean s : starts_clean s → starts_clean (trimEnd s).
Proof.
  destruct s as [| c s]; [done |]. simpl. intros Hc.
  by rewrite (trimEnd_cons _ _ Hc).
Qed.

Lemma trimEnd_twice s : trimEnd (trimEnd s) = trimEnd s.
Proof.
  unfold trimEnd. rewrite reverse_involutive.
  by rewrite (trimStart_id _ (trimStart_clean _)).
Qed.

Lemma trim_clean s : starts_clean (trim s) ∧ starts_clean (reverse (trim s)).
Proof.
  unfold trim. split.
  - apply trimEnd_clean, trimStart_clean.
  - unfold trimEnd. rewrite reverse_involutive. apply trimStart_clean.
Qed.

(** Trimming what is trimmed changes nothing. *)
Lemma trim_twice s : trim (trim s) = trim s.
Proof.
  unfold trim at 1. rewrite (trimStart_id _ (proj1 (trim_clean s))).
  unfold trim. apply trimEnd_twice.
Qed.
End TrimFacts.

Section RelayRuns.
Context `{Y : Capability}.
Implicit Types (s : Server) (ws c : Conn) (r : nat) (name : jsstring).

Lemma room_peers_Some aw ps :
  room_peers aw = Some ps → ps = triple <$> filter listed (getStates aw).
Proof.
  intros Hps.
  assert (Htext : ∀ entry, entry ∈ getStates aw → name_is_text entry.2).
  { intros entry Hin.
    destruct (visit_state entry) as [p |] eqn:Hv; [by eapply visit_state_Some |].
    assert (room_peers aw = None) as Hnone; [| congruence].
    unfold room_peers. apply fmap_None, mapM_None, Exists_exists. by exists entry. }
  rewrite (room_peers_text _ Htext) in Hps. by injection Hps.
Qed.

Lemma js_or_truthy a b : truthy b = true → truthy (js_or a b) = true.
Proof. unfold js_or. by destruct (truthy a) eqn:Ha. Qed.

(** X9. Whatever the directory query answers is well formed: a listed
    name is not empty and has no white space around it, a listed color is
    never falsy, and the identifiers listed for a room are, in their
    order, among those of the room's presence set. *)
Theorem directory_answer_well_formed s answer :
  api_rooms s = Some answer →
  length answer = length (rooms s)
  ∧ ∀ i item, answer !! i = Some item →
      ∃ room, rooms s !! i = Some (summary_name item, room)
        ∧ peer_id <$> summary_peers item
            `sublist_of` Map_keys (getStates (awareness room))
        ∧ ∀ p, p ∈ summary_peers item →
            peer_name p ≠ []
            ∧ trim (peer_name p) = peer_name p
            ∧ truthy (peer_color p) = true.
Proof.
  unfold api_rooms. intros Hall%mapM_Some_1. split.
  - symmetry. by eapply Forall2_length.
  - intros i item Hi.
    destruct (Forall2_lookup_r _ _ _ _ _ Hall Hi) as ([name room] & Hl & Hitem).
    apply fmap_Some in Hitem as (ps & Hps%room_peers_Some & ->). simpl.
    exists room. split_and!; [done | |].
    + subst ps. rewrite <- list_fmap_compose.
      unfold Map_keys. apply fmap_sublist, sublist_filter.
    + intros p Hp. subst ps.
      apply list_elem_of_fmap in Hp as (entry & -> & [Hlisted _]%list_elem_of_filter).
      unfold triple. simpl. split_and!.
      * intros Hnil. apply Hlisted. by left.
      * apply trim_twice.
      * by apply js_or_truthy.
Qed.

(** X10. When the origin of a presence change is no socket of the
    connection set (a timer of the presence set, or a socket that has left
    the set), the fan-out leaves no open socket out. *)
Theorem fanout_without_sender_reaches_all ready aw cs ch origin :
  (∀ c, c ∈ cs → OriginConn c ≠ origin) →
  awareness_on_update ready aw cs ch origin
  = (λ c, Send c (awareness_message aw (changed ch)))
      <$> filter (λ c, ready c = OPEN) cs.
Proof.
  intros Hout. unfold awareness_on_update, recipients. f_equal.
  induction cs as [| c cs IH]; [done |].
  rewrite !filter_cons. rewrite IH by (intros c' Hc'; apply Hout; by right).
  assert (Hc : OriginConn c ≠ origin) by (apply Hout; by left).
  destruct (decide (ready c = OPEN)) as [Hopen | Hno].
  - by rewrite decide_True.
  - by rewrite decide_False by tauto.
Qed.

(** X11. A join is not announced: the upgrade of a socket sends to that
    socket alone, and it leaves every document and presence set as it is,
    every other room as it is, and every socket in the connection set it
    was in. *)
Theorem join_is_silent s request ws name s' out :
  on_upgrade request = Handled name →
  step s (Upgrade request (Some ws)) = Some (s', out) →
  (∀ a, a ∈ out → ∃ b, a = Send ws b)
  ∧ ∀ r n room, rooms s !! r = Some (n, room) →
      ∃ room', rooms s' !! r = Some (n, room')
        ∧ doc room' = doc room
        ∧ awareness room' = awareness room
        ∧ (n ≠ name → room' = room)
        ∧ ∀ c, c ∈ conns room → c ∈ conns room'.
Proof.
  intros Hup. cbn [step]. rewrite Hup. intros [= Heq].
  set (s0 := set_readyState ws OPEN s) in *.
  destruct (getRoom_post s0 name) as (room0 & Hfind & _ & _ & _).
  pose proof (Map_find_lookup _ _ _ _ Hfind) as Hl0.
  rewrite (onWSConnection_unfold _ _ _ _ Hl0) in Heq.
  injection Heq as <- <-. split.
  - intros a Hin. unfold greeting in Hin.
    apply elem_of_cons in Hin as [-> | Hin]; [by eexists |].
    apply list_elem_of_singleton in Hin as ->. by eexists.
  - intros r n room Hl. simpl.
    assert (Hl1 : rooms (getRoom s0 name).2 !! r = Some (n, room)).
    { destruct (Map_find (rooms s0) name) as [[r1 room1] |] eqn:Hs.
      - by rewrite (getRoom_found _ _ _ _ Hs).
      - rewrite (getRoom_absent _ _ Hs). simpl.
        rewrite lookup_app_l; [done |]. by eapply lookup_lt_Some. }
    destruct (decide (r = (getRoom s0 name).1)) as [-> | Hne].
    + rewrite Hl0 in Hl1. injection Hl1 as <- <-.
      eexists. split.
      { apply list_lookup_insert_eq. by eapply lookup_lt_Some. }
      simpl. split_and!; [done | done | done |].
      intros c. apply Set_add_keeps.
    + exists room. by rewrite list_lookup_insert_ne.
Qed.

Lemma emit_message_none ls : ∀ s ws data,
  filter (λ l, l.1 = ws) ls = [] → emit_message ls s ws data = Some (s, []).
Proof.
  induction ls as [| [c r] ls IH]; intros s ws data; simpl; [done |].
  rewrite filter_cons. simpl. case_decide; [done |]. apply IH.
Qed.

Lemma emit_message_single ls : ∀ s ws data r,
  filter (λ l, l.1 = ws) ls = [(ws, r)] →
  emit_message ls s ws data
  = in_room s r (λ room, onMessage (readyState s) room ws data).
Proof.
  induction ls as [| [c r0] ls IH]; intros s ws data r; simpl; [done |].
  rewrite filter_cons. simpl. case_decide as Hc.
  - intros [= -> -> Hrest].
    destruct (in_room s r _) as [[s1 out1] |]; simpl; [| done].
    rewrite (emit_message_none _ _ _ _ Hrest). simpl. by rewrite app_nil_r.
  - apply IH.
Qed.

(** X12. What a message leaves in a room is what the next joiner is
    greeted with.  For a socket with one pair of listeners, on the room
    registered under [name]: when its message listener turns the room into
    [room'], the event stores [room'] in place, and a socket joining
    [name] afterwards gets the sync request of the document of [room'] and
    the snapshot of the presence set of [room']. *)
Theorem joiner_sees_what_messages_left s ws r name room data room' out :
  filter (λ l, l.1 = ws) (listeners s) = [(ws, r)] →
  Map_find (rooms s) name = Some (r, room) →
  onMessage (readyState s) room ws data = Some (room', out) →
  step s (Message ws data)
  = Some (set_rooms (<[r := (name, room')]> (rooms s)) s, out)
  ∧ ∀ ws', (onWSConnection (set_rooms (<[r := (name, room')]> (rooms s)) s)
              ws' name).2
           = greeting ws' room'.
Proof.
  intros Hone Hfind Hmsg. pose proof (Map_find_lookup _ _ _ _ Hfind) as Hl.
  split.
  - cbn [step]. rewrite (emit_message_single _ _ _ _ _ Hone).
    unfold in_room. rewrite Hl, Hmsg. done.
  - intros ws'. set (s1 := set_rooms _ s).
    assert (Hfind1 : Map_find (rooms s1) name = Some (r, room')).
    { destruct (Map_find_keys_prefix _ (rooms s1) _ _ _ Hfind) as [room1 Hf1].
      - simpl. by rewrite (Map_keys_insert _ _ _ _ _ Hl).
      - pose proof (Map_find_lookup _ _ _ _ Hf1) as Hl1. simpl in Hl1.
        rewrite list_lookup_insert_eq in Hl1 by (by eapply lookup_lt_Some).
        injection Hl1 as <-. done. }
    assert (Hl1 : rooms (getRoom s1 name).2 !! (getRoom s1 name).1
                  = Some (name, room')).
    { rewrite (getRoom_found _ _ _ _ Hfind1). simpl.
      apply list_lookup_insert_eq. by eapply lookup_lt_Some. }
    by rewrite (onWSConnection_unfold _ _ _ _ Hl1).
Qed.

(** X13. Closing is idempotent: the close listeners of a socket, run a
    second time, change no room. *)
Theorem close_twice_is_close_once s ws s1 s2 out1 out2 :
  step s (Close ws) = Some (s1, out1) →
  step s1 (Close ws) = Some (s2, out2) →
  rooms s2 = rooms s1 ∧ listeners s2 = listeners s ∧ out1 = [] ∧ out2 = [].
Proof.
  rewrite !step_close. intros [= <- <-] [= <- <-].
  set (s0 := set_readyState ws CLOSED s).
  destruct (emit_close_rooms (listeners s) ws s0) as (Hls & _ & Hlen & Hrooms).
  set (s1 := emit_close (listeners s) s0 ws) in *.
  set (s0' := set_readyState ws CLOSED s1).
  destruct (emit_close_rooms (listeners s1) ws s0') as (Hls' & _ & Hlen' & Hrooms').
  split_and!; [| rewrite Hls'; simpl; by rewrite Hls | done | done].
  apply list_eq. intros r.
  destruct (rooms s1 !! r) as [[n room1] |] eqn:Hl1.
  - rewrite (Hrooms' r n room1 Hl1).
    case_decide as Hin; [| done].
    destruct (rooms s !! r) as [[n0 room] |] eqn:Hl.
    + rewrite (Hrooms r n0 room Hl) in Hl1. injection Hl1 as <- <-.
      rewrite Hls in Hin. rewrite decide_True by done.
      by rewrite onClose_twice.
    + apply lookup_ge_None in Hl. apply lookup_lt_Some in Hl1.
      simpl in Hlen. lia.
  - apply lookup_ge_None in Hl1. apply lookup_ge_None.
    simpl in Hlen'. lia.
Qed.
End RelayRuns.

(** ** [Map], entry by entry *)

Section MapFacts.
Context {K V : Type} `{EqDecision K}.
Implicit Types (m : list (K * V)) (k : K) (v : V).

Lemma Map_get_cons k0 v0 m k :
  Map_get ((k0, v0) :: m) k = if decide (k0 = k) then Some v0 else Map_get m k.
Proof.
  unfold Map_get, Map_find. simpl. case_decide; [done |].
  by destruct (list_find _ m) as [[i e] |].
Qed.

Lemma Map_set_cons k0 v0 m k v :
  Map_set ((k0, v0) :: m) k v
  = if decide (k0 = k) then (k, v) :: m else (k0, v0) :: Map_set m k v.
Proof.
  unfold Map_set, Map_find. simpl. case_decide; [done |].
  by destruct (list_find _ m) as [[i e] |].
Qed.

Lemma Map_get_set m k v k' :
  Map_get (Map_set m k v) k' = if decide (k = k') then Some v else Map_get m k'.
Proof.
  induction m as [| [k0 v0] m IH].
  - unfold Map_set. simpl. rewrite Map_get_cons. by case_decide.
  - rewrite Map_set_cons. destruct (decide (k0 = k)) as [-> | Hne].
    + rewrite !Map_get_cons. by case_decide.
    + rewrite !Map_get_cons, IH. repeat case_decide; congruence.
Qed.

Lemma Map_keys_set m k v :
  Map_keys (Map_set m k v)
  = if decide (k ∈ Map_keys m) then Map_keys m else Map_keys m ++ [k].
Proof.
  induction m as [| [k0 v0] m IH]; [by unfold Map_set |].
  rewrite Map_set_cons.
  change (Map_keys ((k0, v0) :: m)) with (k0 :: Map_keys m).
  destruct (decide (k0 = k)) as [-> | Hne].
  - by rewrite decide_True by left.
  - change (Map_keys ((k0, v0) :: Map_set m k v))
      with (k0 :: Map_keys (Map_set m k v)).
    rewrite IH. destruct (decide (k ∈ Map_keys m)) as [Hin | Hout].
    + by rewrite decide_True by (by right).
    + rewrite decide_False; [done |].
      intros [? | ?]%elem_of_cons; [congruence | done].
Qed.

Lemma Map_get_is_Some m k : is_Some (Map_get m k) ↔ k ∈ Map_keys m.
Proof.
  unfold Map_get. rewrite fmap_is_Some. split.
  - intros Hsome. destruct (decide (k ∈ Map_keys m)) as [? | Hout]; [done |].
    apply Map_find_None in Hout. rewrite Hout in Hsome. by destruct Hsome.
  - intros Hin. destruct (Map_find m k) as [p |] eqn:Hf; [done |].
    by apply Map_find_None in Hf.
Qed.

Lemma Map_set_NoDup m k v :
  NoDup (Map_keys m) → NoDup (Map_keys (Map_set m k v)).
Proof.
  intros Hnd. rewrite Map_keys_set. case_decide as Hin; [done |].
  apply NoDup_app. split_and!; [done | | apply NoDup_singleton].
  by intros k' Hk' ->%list_elem_of_singleton.
Qed.
End MapFacts.

(** ** The page script *)

Section PageFacts.
Implicit Types (st : JsVal) (n : jsstring) (entries : list (jsstring * Chip)).

Lemma trim_user : trim (js "user") = js "user".
Proof. reflexivity. Qed.

(** The name [ensurePresence] settles on for what the fields give. *)
Lemma settled_name raw :
  ∃ n, js_or (JsStr (trim raw)) (JsStr (js "user")) = JsStr n
       ∧ n ≠ [] ∧ trim n = n
       ∧ (trim raw = [] → n = js "user")
       ∧ (trim raw ≠ [] → n = trim raw).
Proof.
  unfold js_or. simpl. case_bool_decide as Hblank; simpl.
  - exists (js "user"). by rewrite Hblank.
  - exists (trim raw). split_and!; [done | done | apply trim_twice | done | done].
Qed.

(** X15. A state that [ensurePresence] hands to [setLocalState] never
    makes the directory query throw, and the directory lists it under
    exactly the name and color announced, unless that name is ["user"] or
    ["guest"] in some case of letters. *)
Theorem directory_shows_announced_name nameEl colorEl authedUser state_color
    cursor st cid :
  presence_state nameEl colorEl authedUser state_color cursor = Some st →
  ∃ n color,
    js_get st (js "name") = JsStr n
    ∧ js_get st (js "color") = color
    ∧ name_is_text st
    ∧ visit_state (cid, st)
      = Some (if decide (same_ignoring_case n (js "user")
                         ∨ same_ignoring_case n (js "guest"))
              then []
              else [mkPeer cid n (js_or color (JsStr (js "#999")))]).
Proof.
  unfold presence_state.
  destruct (js_or (js_or (field_value nameEl) authedUser) (JsStr []))
    as [| | b | q | raw | items | props]; try done.
  destruct (settled_name raw) as (n & Hn & Hne & Htrim & _).
  rewrite Hn. cbv zeta. intros [= Hst].
  assert (Hname : js_get st (js "name") = JsStr n) by (by rewrite <- Hst).
  clear Hst. exists n, (js_get st (js "color")).
  assert (Htext : name_is_text st) by (unfold name_is_text; by rewrite Hname).
  split_and!; [done | done | done |].
  rewrite (visit_state_text (cid, st) Htext).
  unfold listed, triple, display_name. cbn [fst snd]. rewrite Hname, Htrim.
  unfold placeholder.
  destruct (decide (same_ignoring_case n (js "user")
                    ∨ same_ignoring_case n (js "guest"))) as [Hph | Hno].
  - by rewrite decide_False by tauto.
  - by rewrite decide_True by tauto.
Qed.

Lemma forEach_state_snoc states entry : ∀ entries,
  forEach_state (states ++ [entry]) entries
  = forEach_state states entries ≫= λ m, note_state m entry.
Proof.
  induction states as [| e states IH]; intros entries; simpl.
  - by destruct (note_state entries entry).
  - destruct (note_state entries e); [apply IH | done].
Qed.

Lemma note_state_text entries entry :
  name_is_text entry.2 →
  note_state entries entry
  = Some (if decide (listed entry)
          then Map_set entries (peer_name (triple entry))
                 (peer_name (triple entry), peer_color (triple entry))
          else entries).
Proof.
  destruct entry as [cid st]. intros Htext.
  unfold note_state. cbv beta iota.
  rewrite (name_or_empty st Htext), placeholder_test.
  unfold listed, triple. cbn [fst snd peer_name peer_color].
  case_bool_decide; [by rewrite decide_False by tauto |].
  by rewrite decide_True.
Qed.

Lemma note_state_Some entries entry m :
  note_state entries entry = Some m → name_is_text entry.2.
Proof.
  destruct entry as [cid st]. unfold note_state, name_is_text, js_or. simpl.
  destruct (js_get st (js "name")) as [| | b | q | n | items | props];
    simpl; try done.
  - by destruct b.
  - by destruct (Qnum q =? 0)%Z.
Qed.


(** What [entriesByName] holds after the states seen so far. *)
Lemma forEach_state_spec states :
  match forEach_state states [] with
  | Some entries =>
      (∀ entry, entry ∈ states → name_is_text entry.2)
      ∧ NoDup (Map_keys entries)
      ∧ ∀ n, Map_get entries n
             = (λ p, (n, peer_color p))
                 <$> last (filter (λ p, peer_name p = n)
                             (triple <$> filter listed states))
  | None => ∃ entry, entry ∈ states ∧ ¬ name_is_text entry.2
  end.
Proof.
  induction states as [| entry states IH] using rev_ind.
  - simpl. split_and!; [by intros e He%elem_of_nil | constructor | done].
  - rewrite forEach_state_snoc.
    destruct (forEach_state states []) as [m |]; simpl.
    + destruct IH as (Htext & Hnd & Hget).
      destruct (note_state m entry) as [m' |] eqn:Hnote.
      * pose proof (note_state_Some _ _ _ Hnote) as He.
        assert (m' = if decide (listed entry)
                     then Map_set m (peer_name (triple entry))
                            (peer_name (triple entry), peer_color (triple entry))
                     else m) as ->
          by (rewrite (note_state_text _ _ He) in Hnote; congruence).
        split_and!.
        -- intros e [Hin | ->%list_elem_of_singleton]%elem_of_app; [by apply Htext | done].
        -- case_decide; [by apply Map_set_NoDup | done].
        -- intros n. rewrite filter_app, filter_cons, filter_nil.
           destruct (decide (listed entry)) as [Hlisted | Hno].
           ++ rewrite fmap_app, filter_app.
              change (triple <$> [entry]) with [triple entry].
              generalize (triple entry). intros p.
              rewrite filter_cons, filter_nil, Map_get_set.
              destruct (decide (peer_name p = n)) as [<- | Hne].
              ** by rewrite last_snoc.
              ** by rewrite app_nil_r.
           ++ by rewrite app_nil_r.
      * exists entry. split; [apply elem_of_app; right; by left |].
        intros He. by rewrite (note_state_text _ _ He) in Hnote.
    + destruct IH as (e & Hin & Hno). exists e.
      split; [apply elem_of_app; by left | done].
Qed.


End PageFacts.

Section Membership.
Context `{Y : Capability}.
Implicit Types (s : Server) (ws c : Conn) (r : nat) (name : jsstring).

Lemma shape_member s s' r name room ws :
  shape s' = shape s →
  rooms s !! r = Some (name, room) → ws ∈ conns room →
  ∃ room', rooms s' !! r = Some (name, room') ∧ ws ∈ conns room'.
Proof.
  intros Hsh Hl Hin.
  assert (Hl' : shape s' !! r = Some (name, conns room)).
  { rewrite Hsh. apply shape_lookup. by exists room. }
  apply shape_lookup in Hl' as (room' & Hl' & Hc). exists room'.
  by rewrite Hc.
Qed.

(** X18. Only its own close takes a socket out of a connection set:
    through any other event a socket stays in the connection set it is in,
    and the room stays under its name. *)
Theorem only_own_close_removes s e s' out r name room ws :
  step s e = Some (s', out) → e ≠ Close ws →
  rooms s !! r = Some (name, room) → ws ∈ conns room →
  ∃ room', rooms s' !! r = Some (name, room') ∧ ws ∈ conns room'.
Proof.
  intros Hstep He Hl Hin.
  destruct e as [request handshake | ws0 data | ws0 | ws0 | r0 aw' ch label].
  - destruct (on_upgrade request) as [| n] eqn:Hup.
    { cbn [step] in Hstep. rewrite Hup in Hstep. injection Hstep as <- <-.
      by exists room. }
    destruct handshake as [ws0 |].
    + destruct (join_is_silent _ _ _ _ _ _ Hup Hstep) as (_ & Hrooms).
      destruct (Hrooms _ _ _ Hl) as (room' & Hl' & _ & _ & _ & Hkeep).
      exists room'. split; [done | by apply Hkeep].
    + cbn [step] in Hstep. rewrite Hup in Hstep. injection Hstep as <- <-.
      by exists room.
  - apply message_stays_in_its_rooms in Hstep as (Hsh & _).
    by eapply shape_member.
  - injection Hstep as <- <-. by exists room.
  - rewrite step_close in Hstep. injection Hstep as <- <-.
    destruct (emit_close_rooms (listeners s) ws0 (set_readyState ws0 CLOSED s))
      as (_ & _ & _ & Hrooms).
    eexists. split; [by apply Hrooms |].
    case_decide; [| done]. apply Set_delete_elem. split; [done |].
    intros ->. done.
  - cbn [step] in Hstep. eapply shape_member; [| done | done].
    eapply in_room_shape; [done |]. by intros ? ? ? [= <- <-].
Qed.

Lemma onMessage_sync_targets ready room ws data dec room' out :
  readVarUint data = Some (MSG_SYNC, dec) →
  onMessage ready room ws data = Some (room', out) →
  ∀ a, a ∈ out → ∃ b, a = Send ws b.
Proof.
  intros Htag. rewrite (onMessage_sync _ _ _ _ _ Htag).
  destruct (readSyncMessage dec (doc room)) as [[o doc'] |]; simpl; [| done].
  intros [= <- <-] a Hin. case_decide; [by apply elem_of_nil in Hin |].
  apply list_elem_of_singleton in Hin as ->. by eexists.
Qed.

Lemma emit_message_sync_targets ls : ∀ s ws data dec s' out,
  readVarUint data = Some (MSG_SYNC, dec) →
  emit_message ls s ws data = Some (s', out) →
  ∀ a, a ∈ out → ∃ b, a = Send ws b.
Proof.
  induction ls as [| [c r] ls IH]; intros s ws data dec s' out Htag; simpl.
  - intros [= <- <-] a Hin. by apply elem_of_nil in Hin.
  - case_decide; [| by eapply IH].
    destruct (in_room s r _) as [[s1 out1] |] eqn:H1; simpl; [| done].
    destruct (emit_message ls s1 ws data) as [[s2 out2] |] eqn:H2;
      simpl; [| done].
    intros [= <- <-] a [Hin | Hin]%elem_of_app.
    + destruct (in_room_out _ _ _ _ _ H1) as [-> | (n & room & room' & _ & Hm)];
        [by apply elem_of_nil in Hin |].
      by eapply onMessage_sync_targets.
    + by eapply IH.
Qed.

(** X19. A message is answered or fanned out, never both: whatever a
    sync message causes to be sent goes to its sender, and nothing an
    awareness message causes to be sent goes to its sender, whatever
    listeners the socket has. *)
Theorem reply_or_fanout s ws data dec s' out :
  step s (Message ws data) = Some (s', out) →
  (readVarUint data = Some (MSG_SYNC, dec) →
     ∀ a, a ∈ out → ∃ b, a = Send ws b)
  ∧ (readVarUint data = Some (MSG_AWARENESS, dec) →
     ∀ b, Send ws b ∉ out).
Proof.
  cbn [step]. intros Hrun. split; intros Htag.
  - by eapply emit_message_sync_targets.
  - by eapply emit_message_awareness_silent.
Qed.
End Membership.

(** ** More of the session, run *)

Section Tour.
Import Demo Tour.

Lemma after_run es :
  run start es = Some (after es, sent es) → reachable (after es).
Proof. intros Hrun. by exists es, (sent es). Defined.

Lemma registry_never_evicts_witness :
  run (after pair) [Message 1 alice; Close 1; join 3]
  = Some (after (told ++ [Close 1; join 3]),
          default [] (snd <$> run (after pair) [Message 1 alice; Close 1; join 3]))
  ∧ ∃ room', Map_find (rooms (after (told ++ [Close 1; join 3]))) (js "studio-123")
             = Some (0, room').
Proof.
  assert (Hrun : run (after pair) [Message 1 alice; Close 1; join 3]
    = Some (after (told ++ [Close 1; join 3]),
            default [] (snd <$> run (after pair) [Message 1 alice; Close 1; join 3])))
    by (by vm_compute).
  split; [exact Hrun |].
  destruct (registry_never_evicts _ _ _ _ Hrun) as (_ & _ & Hstay).
  apply (Hstay (js "studio-123") 0
           (default (fresh_room 0) (Map_get (rooms (after pair)) (js "studio-123")))).
  by vm_compute.
Defined.

Lemma reachable_registry_tidy_witness :
  reachable (after told) ∧ NoDup (Map_keys (rooms (after told))).
Proof.
  assert (Hreach : reachable (after told)) by (apply after_run; by vm_compute).
  split; [exact Hreach |].
  by destruct (reachable_registry_tidy _ Hreach) as (Hnames & _).
Defined.

Lemma upgrade_refuses_or_names_room_witness :
  on_upgrade studio = Handled (js "studio-123") ∧ js "studio-123" ≠ [].
Proof.
  assert (Hup : on_upgrade studio = Handled (js "studio-123")) by (by vm_compute).
  split; [exact Hup |].
  destruct (upgrade_refuses_or_names_room studio) as (_ & Hnamed).
  by apply Hnamed.
Defined.

Lemma message_stays_in_its_rooms_witness :
  step (after pair) (Message 1 alice) = Some (after told, drop 4 (sent told))
  ∧ shape (after told) = shape (after pair).
Proof.
  assert (Hstep : step (after pair) (Message 1 alice)
                  = Some (after told, drop 4 (sent told))) by (by vm_compute).
  split; [exact Hstep |].
  by destruct (message_stays_in_its_rooms _ _ _ _ _ Hstep) as (Hsh & _).
Defined.

Lemma closed_socket_is_forgotten_witness :
  reachable (after told)
  ∧ ∃ s', step (after told) (Close 1) = Some (s', [])
      ∧ ∀ name room, (name, room) ∈ rooms s' → 1 ∉ conns room.
Proof.
  assert (Hreach : reachable (after told)) by (apply after_run; by vm_compute).
  split; [exact Hreach |].
  destruct (closed_socket_is_forgotten _ 1 Hreach) as (s' & Hstep & Hgone & _).
  by exists s'.
Defined.

Lemma fanout_sends_once_witness :
  reachable (after told)
  ∧ rooms (after told) !! 0 = Some (js "studio-123",
                                     studio_told)
  ∧ NoDup (awareness_on_update closing_2 with_alice [1; 2]
             (mkChanges [7%N] [] []) (OriginOther "timeout")).
Proof.
  assert (Hreach : reachable (after told)) by (apply after_run; by vm_compute).
  assert (Hl : rooms (after told) !! 0
               = Some (js "studio-123", studio_told))
    by (by vm_compute).
  split_and!; [exact Hreach | exact Hl |].
  exact (fanout_sends_once (Y := mini) _ _ _ _ closing_2 with_alice
           (mkChanges [7%N] [] [])
           (OriginOther "timeout") Hreach Hl).
Defined.

Lemma undecodable_message_throws_witness :
  readVarUint [] = None
  ∧ step (after pair) (Message 1 []) = None.
Proof.
  split; [by vm_compute |].
  destruct (undecodable_message_throws (after pair) 1 0 (js "studio-123")
              studio_pair
              []) as (Hthrow & _).
  - vm_compute. repeat constructor.
  - by vm_compute.
  - left. by vm_compute.
  - exact Hthrow.
Defined.

Lemma directory_throws_on_untyped_name_witness : api_rooms odd_lobby = None.
Proof.
  apply (directory_throws_on_untyped_name odd_lobby).
  exists (js "lobby", odd_room),
         (3%N, JsObj [(js "name", JsNum 5)]).
  split_and!.
  - vm_compute. repeat constructor.
  - vm_compute. repeat constructor.
  - intros Htext. by vm_compute in Htext.
Defined.

Lemma directory_answer_well_formed_witness :
  api_rooms lobby = Some (directory lobby)
  ∧ length (directory lobby) = 1.
Proof.
  assert (Hanswer : api_rooms lobby = Some (directory lobby)) by (by vm_compute).
  split; [exact Hanswer |].
  by destruct (directory_answer_well_formed _ _ Hanswer) as (-> & _).
Defined.

Lemma fanout_without_sender_reaches_all_witness :
  awareness_on_update closing_2 with_alice [1; 2; 3] (mkChanges [] [] [7%N])
    (OriginOther "timeout")
  = [Send 1 (awareness_message with_alice [7%N]);
     Send 3 (awareness_message with_alice [7%N])].
Proof.
  rewrite (fanout_without_sender_reaches_all (Y := mini) closing_2 with_alice
             [1; 2; 3] (mkChanges [] [] [7%N]) (OriginOther "timeout"));
    [by vm_compute |].
  by intros c _.
Defined.

Lemma join_is_silent_witness :
  on_upgrade studio = Handled (js "studio-123")
  ∧ ∃ s' out, step (after told) (join 3) = Some (s', out)
      ∧ ∀ a, a ∈ out → ∃ b, a = Send 3 b.
Proof.
  assert (Hup : on_upgrade studio = Handled (js "studio-123")) by (by vm_compute).
  split; [exact Hup |].
  destruct (step (after told) (join 3)) as [[s' out] |] eqn:Hstep;
    [| by vm_compute in Hstep].
  exists s', out. split; [done |].
  by destruct (join_is_silent _ _ _ _ _ _ Hup Hstep) as (Hout & _).
Defined.

Lemma joiner_sees_what_messages_left_witness :
  (onWSConnection (after told) 3 (js "studio-123")).2
  = greeting 3 studio_told.
Proof.
  destruct (joiner_sees_what_messages_left (after pair) 1 0 (js "studio-123")
              studio_pair alice studio_told
              [Send 2 (awareness_message (Y := mini) with_alice [7%N])])
    as (_ & Hgreet); [by vm_compute.. |].
  rewrite <- (Hgreet 3). by vm_compute.
Defined.

Lemma close_twice_is_close_once_witness :
  ∃ s1 s2, step (after told) (Close 1) = Some (s1, [])
    ∧ step s1 (Close 1) = Some (s2, [])
    ∧ rooms s2 = rooms s1.
Proof.
  eexists _, _. split; [apply step_close |]. split; [apply step_close |].
  by destruct (close_twice_is_close_once _ _ _ _ _ _
                 (step_close (after told) 1) (step_close _ 1)) as (Hsame & _).
Defined.


Lemma directory_shows_announced_name_witness :
  ∃ st, ann = Some st
    ∧ visit_state (4%N, st) = Some [mkPeer 4 (js "Ann") (JsStr (js "#123456"))].
Proof.
  destruct ann as [st |] eqn:Hann; [| by vm_compute in Hann].
  exists st. split; [done |].
  destruct (directory_shows_announced_name _ _ _ _ _ st 4%N Hann)
    as (n & color & _ & _ & _ & Hvisit).
  rewrite Hvisit. vm_compute in Hann. injection Hann as <-. by vm_compute.
Defined.



Lemma only_own_close_removes_witness :
  ∃ room', rooms (after (told ++ [Close 1])) !! 0 = Some (js "studio-123", room')
    ∧ 2 ∈ conns room'.
Proof.
  apply (only_own_close_removes (after told) (Close 1)
           (after (told ++ [Close 1])) [] 0 (js "studio-123")
           (studio_told) 2).
  - by vm_compute.
  - by intros [= ?].
  - by vm_compute.
  - simpl. repeat constructor.
Defined.

Lemma reply_or_fanout_witness :
  step (after pair) (Message 1 alice) = Some (after told, drop 4 (sent told))
  ∧ ∀ b, Send 1 b ∉ drop 4 (sent told).
Proof.
  assert (Hstep : step (after pair) (Message 1 alice)
                  = Some (after told, drop 4 (sent told))) by (by vm_compute).
  split; [exact Hstep |].
  destruct (reply_or_fanout _ _ _ (tail alice) _ _ Hstep) as (_ & Hsilent).
  apply Hsilent. by vm_compute.
Defined.
End Tour.
